(** * comfylogger: a shallow embedding of [src/logger.ts]

    The logger renders its arguments into one string, runs the "before"
    transformers, appends the reset code, runs the "after" transformers,
    trims, writes to the console, strips the escape codes, dispatches the
    pair [{output, stripped}] to the listeners, forwards the stripped text to
    an HTTP endpoint and returns the pair.

    Conventions of the embedding.
    - A JavaScript string is the sequence of its code units, here the 8-bit
      ones ([string] of the Standard Library); [+:+] is [+] on strings.
    - Console writes, listener invocations and [fetch] are recorded, in
      program order, in a trace of [effect]s; [throw] and [try]/[catch] are
      those of the small monad [M].
    - The escape-code table of [./util/ansi.js] is outside this development:
      the one constant of it that the logger core uses, [ANSI.STYLE.reset],
      is a variable of the sections below, as are the host's [trimStart] and
      [trimEnd].
    - Transformers and style functions are total functions on strings, as
      their types in the source say.
    - A listener may return or throw.  [log] is the call when the listeners
      leave the logger alone; [log_live] is the call when they may call its
      methods while they run, on the array that the loop is walking. *)

From Stdlib Require Import Ascii String DecimalString.
From stdpp Require Import base list strings gmap.

Set Default Proof Using "Type".

(** ** JavaScript values reaching the logger *)

(** [StyleFn]: a callable taking an optional text, with its own [toString]. *)
Record StyleFn := mkStyleFn {
  apply_fn : option string → string;
  toString : string
}.

(** The arguments of [log] are of type [any].  The embedding keeps apart the
    cases the code tells apart: [undefined], callables (at the type [StyleFn]
    of the source), template-strings arrays (an array with a [raw] property,
    given by its cooked parts), symbols (which [String(val)] converts and a
    template literal refuses) and everything else, of which only the result
    of the conversion to a string is ever used. *)
Inductive value :=
| VUndefined
| VNull
| VBool (b : bool)
| VString (s : string)
| VFunction (f : StyleFn)
| VTemplate (parts : list string)
| VSymbol (description : string)
| VOther (str : string).

(** [Array.prototype.join] on an array of strings: the elements are appended
    to the result [R] from the left, the separator before each but the first
    ([k] is the index of the next element). *)
Fixpoint join_from (separator : string) (xs : list string) (k : nat) (R : string)
  : string :=
  match xs with
  | [] => R
  | x :: rest =>
      let R := if bool_decide (0 < k) then R +:+ separator else R in
      join_from separator rest (S k) (R +:+ x)
  end.

Definition join (separator : string) (xs : list string) : string :=
  join_from separator xs 0 "".

(** [String(val)]; a function object answers with its own [toString]. *)
Definition String_ (val : value) : string :=
  match val with
  | VUndefined => "undefined"
  | VNull => "null"
  | VBool true => "true"
  | VBool false => "false"
  | VString s => s
  | VFunction f => toString f
  | VTemplate parts => join "," parts
  | VSymbol description => "Symbol(" +:+ description +:+ ")"
  | VOther str => str
  end.

(** [Array.isArray(strings) && 'raw' in strings] *)
Definition is_template (val : value) : bool :=
  match val with VTemplate _ => true | _ => false end.

(** [values[i]] for a possibly negative or out-of-range index. *)
Definition index (values : list value) (i : Z) : value :=
  if (i <? 0)%Z then VUndefined
  else default VUndefined (values !! Z.to_nat i).

(** [Array.prototype.reduce] with the index passed to the callback. *)
Fixpoint reduce {A B} (f : B → A → Z → B) (xs : list A) (i : Z) (acc : B) : B :=
  match xs with
  | [] => acc
  | x :: rest => reduce f rest (i + 1)%Z (f acc x i)
  end.

Section Styles.
Variable reset : string.

(** [makeStyle], lines 408-413. *)
Definition makeStyle (code : string) : StyleFn :=
  {| apply_fn := λ text,
       match text with
       | None => code
       | Some text => code +:+ text +:+ reset
       end;
     toString := code |}.

(** [style], lines 421-425. *)
Definition style (composer : string → string) : StyleFn :=
  let fn := λ text : option string, composer (default "" text) in
  {| apply_fn := fn; toString := fn (Some "") |}.
End Styles.

(** ** Configuration *)

Record ComfyLoggerExternalLoggingOptions := {
  url : string;
  headers : option (gmap string string);
  method : option string;
  onError : option nat
}.

(** [LoggerRuntimeConfig].  A property that is absent and one that holds
    [undefined] read the same: both are [None]. *)
Record LoggerRuntimeConfig := {
  autoSpaceBetween : option bool;
  timestampFormat : option string;
  trimBefore : option string;
  trimAfter : option string;
  externalLogging : option ComfyLoggerExternalLoggingOptions;
  console : option bool;
  tags : option (list string);
  logErrorsToConsole : option bool
}.

(** [Partial<LoggerRuntimeConfig>]: [None] for a property the object does not
    have, [Some v] for one it has, with value [v] (which may be [undefined]). *)
Record PartialConfig := {
  p_autoSpaceBetween : option (option bool);
  p_timestampFormat : option (option string);
  p_trimBefore : option (option string);
  p_trimAfter : option (option string);
  p_externalLogging : option (option ComfyLoggerExternalLoggingOptions);
  p_console : option (option bool);
  p_tags : option (option (list string));
  p_logErrorsToConsole : option (option bool)
}.

(** One property of [{ ...a, ...b }]: that of [b] when [b] has it. *)
Definition spread {A} (a : A) (b : option A) : A :=
  match b with
  | Some v => v
  | None => a
  end.

Definition sharedGlobalConfig : LoggerRuntimeConfig := {|
  autoSpaceBetween := Some true;
  timestampFormat := Some "HH:mm:ss";
  trimBefore := None;
  trimAfter := None;
  externalLogging := None;
  console := Some true;
  tags := Some [];
  logErrorsToConsole := Some true
|}.

(** Truthiness of an optional boolean and of an optional string. *)
Definition truthy_bool (b : option bool) : bool := default false b.
Definition truthy_string (s : option string) : bool :=
  match s with
  | Some (String _ _) => true
  | _ => false
  end.

(** ** The process-wide tag filter, lines 39-86 *)

Record Filter := {
  whitelistTags : gset string;
  blacklistTags : gset string
}.

Definition internalGlobalConfig : Filter :=
  {| whitelistTags := ∅; blacklistTags := ∅ |}.

(** [Set.prototype.add] on each of the two sets. *)
Definition add_blacklisted (tag : string) (G : Filter) : Filter :=
  {| whitelistTags := whitelistTags G;
     blacklistTags := {[ tag ]} ∪ blacklistTags G |}.

Definition add_whitelisted (tag : string) (G : Filter) : Filter :=
  {| whitelistTags := {[ tag ]} ∪ whitelistTags G;
     blacklistTags := blacklistTags G |}.

Module ComfyLoggerSettings.
Definition isTagBlacklisted (G : Filter) (tag : string) : bool :=
  bool_decide (tag ∈ blacklistTags G).

Definition isTagWhitelisted (G : Filter) (tag : string) : bool :=
  bool_decide (tag ∈ whitelistTags G).

(** [tag] is a [string] or a [string[]]. *)
Definition blacklistTag (tag : string + list string) (G : Filter) : Filter :=
  match tag with
  | inl t => add_blacklisted t G
  | inr ts => foldl (λ G t, add_blacklisted t G) G ts
  end.

Definition whitelistTag (tag : string + list string) (G : Filter) : Filter :=
  match tag with
  | inl t => add_whitelisted t G
  | inr ts => foldl (λ G t, add_whitelisted t G) G ts
  end.

Definition blacklistTags (tags : list string) (G : Filter) : Filter :=
  foldl (λ G tag, add_blacklisted tag G) G tags.

Definition whitelistTags (tags : list string) (G : Filter) : Filter :=
  foldl (λ G tag, add_whitelisted tag G) G tags.
End ComfyLoggerSettings.

(** ** The escape-removal pattern, line 315 *)

(** Regular expressions as far as the pattern needs them: characters, classes,
    sequence, alternation, and the star (greedy [*] or lazy [*?]) of a class. *)
Inductive regex :=
| Char (c : ascii)
| Class (p : ascii → bool)
| Seq (r1 r2 : regex)
| Alt (r1 r2 : regex)
| Star (greedy : bool) (p : ascii → bool).

(** The words a regular expression denotes. *)
Inductive matches : regex → string → Prop :=
| matches_char c :
    matches (Char c) (String c "")
| matches_class (p : ascii → bool) c :
    p c = true → matches (Class p) (String c "")
| matches_seq r1 r2 w1 w2 :
    matches r1 w1 → matches r2 w2 → matches (Seq r1 r2) (w1 +:+ w2)
| matches_alt_l r1 r2 w :
    matches r1 w → matches (Alt r1 r2) w
| matches_alt_r r1 r2 w :
    matches r2 w → matches (Alt r1 r2) w
| matches_star_nil g p :
    matches (Star g p) ""
| matches_star_cons g (p : ascii → bool) c w :
    p c = true → matches (Star g p) w → matches (Star g p) (String c w).

(** The backtracking matcher of the host: [exec r s k] matches [r] at the
    start of [s] and hands the rest of the input to the continuation [k]; the
    first success, in the order of priority of the engine, is the answer. *)
Fixpoint star_greedy (p : ascii → bool) (k : string → option string) (s : string)
  : option string :=
  match s with
  | String c s' =>
      if p c then
        match star_greedy p k s' with
        | Some rest => Some rest
        | None => k s
        end
      else k s
  | "" => k ""
  end.

Fixpoint star_lazy (p : ascii → bool) (k : string → option string) (s : string)
  : option string :=
  match k s with
  | Some rest => Some rest
  | None =>
      match s with
      | String c s' => if p c then star_lazy p k s' else None
      | "" => None
      end
  end.

Fixpoint exec (r : regex) (s : string) (k : string → option string) : option string :=
  match r with
  | Char c =>
      match s with
      | String c' s' => if Ascii.eqb c c' then k s' else None
      | "" => None
      end
  | Class p =>
      match s with
      | String c' s' => if p c' then k s' else None
      | "" => None
      end
  | Seq r1 r2 => exec r1 s (λ s', exec r2 s' k)
  | Alt r1 r2 =>
      match exec r1 s k with
      | Some rest => Some rest
      | None => exec r2 s k
      end
  | Star true p => star_greedy p k s
  | Star false p => star_lazy p k s
  end.

(** [s.replace(r, '')] for a pattern [r] with the [g] flag: the input is
    scanned from the left; where [r] matches, the matched code units are
    dropped ([skip] counts those still to drop) and the scan resumes after
    them; an empty match drops nothing and the scan moves on by one. *)
Fixpoint replace_from (r : regex) (skip : nat) (s : string) : string :=
  match s with
  | "" => ""
  | String c s' =>
      match skip with
      | S n => replace_from r n s'
      | 0 =>
          match exec r s Some with
          | Some rest =>
              match String.length s - String.length rest with
              | S n => replace_from r n s'
              | 0 => String c (replace_from r 0 s')
              end
          | None => String c (replace_from r 0 s')
          end
      end
  end.

Definition replace_all (r : regex) (s : string) : string := replace_from r 0 s.

Definition ESC : ascii := "027"%char.
Definition BEL : ascii := "007"%char.

(** [[0-9;]] *)
Definition digit_or_semicolon (c : ascii) : bool :=
  let n := N_of_ascii c in
  ((48 <=? n) && (n <=? 57) || (n =? 59))%N.

(** [.]: any code unit but a line terminator. *)
Definition dot (c : ascii) : bool :=
  let n := N_of_ascii c in
  negb ((n =? 10) || (n =? 13))%N.

(** [[\u0007]] *)
Definition bel (c : ascii) : bool := Ascii.eqb c BEL.

(** ["]8;;"] *)
Definition osc8 (r : regex) : regex :=
  Seq (Char "]") (Seq (Char "8") (Seq (Char ";") (Seq (Char ";") r))).

(** [/\x1b(\[[0-9;]*m|]8;;.*?[\u0007]|]8;;[\u0007])/g] *)
Definition ansi_pattern : regex :=
  Seq (Char ESC)
    (Alt (Seq (Char "[") (Seq (Star true digit_or_semicolon) (Char "m")))
      (Alt (osc8 (Seq (Star false dot) (Class bel)))
           (osc8 (Class bel)))).

Definition stripAnsi (msg : string) : string := replace_all ansi_pattern msg.

(** ** Effects *)

(** What a [throw] carries. *)
Definition js_error := string.

(** The object handed to the listeners and returned by [log]. *)
Record LogEvent := {
  output : string;
  stripped : string
}.

(** A listener is a function object: [ref] is its identity (what [===]
    compares), [on_event] what a call does to its caller, returning ([None])
    or throwing ([Some error]).  What a listener does besides is its own. *)
Record LoggerEventListener := {
  ref : nat;
  on_event : LogEvent → option js_error
}.

Definition same_function (f g : LoggerEventListener) : bool :=
  bool_decide (ref f = ref g).

Inductive effect :=
| ConsoleLog (msg : string)
| ConsoleWarn (msg : string) (fn : nat)
| ConsoleError (msg : string) (error : js_error)
| Call (fn : nat) (e : LogEvent)
| Fetch (url method : string) (headers : gmap string string) (message : string).

Inductive completion (A : Type) :=
| Normal (a : A)
| Throw (error : js_error).
Arguments Normal {A} a.
Arguments Throw {A} error.

(** A computation: the effects it performed, in order, and how it completed. *)
Definition M (A : Type) : Type := list effect * completion A.

#[global] Instance M_ret : MRet M := λ A a, ([], Normal a).

#[global] Instance M_bind : MBind M := λ A B f m,
  match m with
  | (t, Normal a) => let '(t', c) := f a in (t ++ t', c)
  | (t, Throw error) => (t, Throw error)
  end.

Definition perform (e : effect) : M unit := ([e], Normal ()).

Definition throw {A} (error : js_error) : M A := ([], Throw error).

(** [try { body } catch (error) { handler }] *)
Definition try_catch {A} (body : M A) (handler : js_error → M A) : M A :=
  match body with
  | (t, Throw error) => let '(t', c) := handler error in (t ++ t', c)
  | (t, Normal a) => (t, Normal a)
  end.

(** A call of a listener. *)
Definition call (onLog : LoggerEventListener) (e : LogEvent) : M unit :=
  perform (Call (ref onLog) e) ;;
  match on_event onLog e with
  | None => mret ()
  | Some error => throw error
  end.

(** The effects of a given kind in a trace. *)
Definition calls (t : list effect) : list (nat * LogEvent) :=
  omap (λ e, match e with Call fn ev => Some (fn, ev) | _ => None end) t.

Definition console_errors (t : list effect) : list js_error :=
  omap (λ e, match e with ConsoleError _ error => Some error | _ => None end) t.

Definition console_logs (t : list effect) : list string :=
  omap (λ e, match e with ConsoleLog msg => Some msg | _ => None end) t.

Definition fetches (t : list effect) : list (string * string * gmap string string * string) :=
  omap (λ e, match e with Fetch u m h msg => Some (u, m, h, msg) | _ => None end) t.

(** ** The logger *)

Inductive LoggerEvent := EvLog.

(** [#internal.eventListeners]: one list of listeners per event. *)
Record EventListeners := {
  ev_log : list LoggerEventListener
}.

(** The keys a [for ... in] over [eventListeners] visits. *)
Definition event_keys : list LoggerEvent := [EvLog].

Definition listeners_of (evs : EventListeners) (event : LoggerEvent)
  : list LoggerEventListener :=
  match event with EvLog => ev_log evs end.

Definition set_listeners (event : LoggerEvent) (ls : list LoggerEventListener)
  (evs : EventListeners) : EventListeners :=
  match event with EvLog => {| ev_log := ls |} end.

Record Transformers := {
  before : list (string → string);
  after : list (string → string)
}.

Record ComfyLogger := {
  options : LoggerRuntimeConfig;
  eventListeners : EventListeners;
  transformers : Transformers
}.

Definition set_options (o : LoggerRuntimeConfig) (L : ComfyLogger) : ComfyLogger :=
  {| options := o; eventListeners := eventListeners L; transformers := transformers L |}.

Definition set_eventListeners (evs : EventListeners) (L : ComfyLogger) : ComfyLogger :=
  {| options := options L; eventListeners := evs; transformers := transformers L |}.

Definition set_transformers (ts : Transformers) (L : ComfyLogger) : ComfyLogger :=
  {| options := options L; eventListeners := eventListeners L; transformers := ts |}.

(** [configure], lines 221-223: [this.options = { ...this.options, ...options }]. *)
Definition configure (p : PartialConfig) (L : ComfyLogger) : ComfyLogger :=
  let o := options L in
  set_options
    {| autoSpaceBetween := spread (autoSpaceBetween o) (p_autoSpaceBetween p);
       timestampFormat := spread (timestampFormat o) (p_timestampFormat p);
       trimBefore := spread (trimBefore o) (p_trimBefore p);
       trimAfter := spread (trimAfter o) (p_trimAfter p);
       externalLogging := spread (externalLogging o) (p_externalLogging p);
       console := spread (console o) (p_console p);
       tags := spread (tags o) (p_tags p);
       logErrorsToConsole := spread (logErrorsToConsole o) (p_logErrorsToConsole p) |}
    L.

(** [addEventListener], lines 193-195. *)
Definition addEventListener (event : LoggerEvent) (listener : LoggerEventListener)
  (L : ComfyLogger) : ComfyLogger :=
  let evs := eventListeners L in
  set_eventListeners (set_listeners event (listeners_of evs event ++ [listener]) evs) L.

(** [transformBefore] and [transformAfter], lines 163-177, for an array or a
    single function. *)
Definition transformBefore (args : list (string → string) + (string → string))
  (L : ComfyLogger) : ComfyLogger :=
  let ts := transformers L in
  let more := match args with inl fs => fs | inr f => [f] end in
  set_transformers {| before := before ts ++ more; after := after ts |} L.

Definition transformAfter (args : list (string → string) + (string → string))
  (L : ComfyLogger) : ComfyLogger :=
  let ts := transformers L in
  let more := match args with inl fs => fs | inr f => [f] end in
  set_transformers {| before := before ts; after := after ts ++ more |} L.

(** The fields of a fresh instance, lines 122-153. *)
Definition fresh : ComfyLogger := {|
  options := {|
    autoSpaceBetween := autoSpaceBetween sharedGlobalConfig;
    timestampFormat := timestampFormat sharedGlobalConfig;
    trimBefore := None;
    trimAfter := None;
    externalLogging := externalLogging sharedGlobalConfig;
    console := console sharedGlobalConfig;
    tags := Some (default [] (tags sharedGlobalConfig));
    logErrorsToConsole := logErrorsToConsole sharedGlobalConfig |};
  eventListeners := {| ev_log := [] |};
  transformers := {| before := []; after := [] |}
|}.

Record ComfyLoggerConstructorOptions := {
  config : PartialConfig;
  listeners : option (list LoggerEventListener)
}.

(** The constructor, lines 131-140. *)
Definition new_ComfyLogger (opts : option ComfyLoggerConstructorOptions) : ComfyLogger :=
  match opts with
  | None => fresh
  | Some o =>
      foldl (λ L listener, addEventListener EvLog listener L)
        (configure (config o) fresh)
        (default [] (listeners o))
  end.

(** The inner loop of [removeEventListener], lines 206-211: [n] is [i + 1];
    [delete i] is [splice(i, 1)]. *)
Fixpoint remove_scan (callback : LoggerEventListener) (n : nat)
  (listeners found : list LoggerEventListener)
  : list LoggerEventListener * list LoggerEventListener :=
  match n with
  | 0 => (listeners, found)
  | S i =>
      match listeners !! i with
      | Some l =>
          if same_function l callback
          then remove_scan callback i (delete i listeners) (found ++ [callback])
          else remove_scan callback i listeners found
      | None => remove_scan callback i listeners found
      end
  end.

(** [removeEventListener], lines 202-219: the logger after the call, and the
    call's effects and result. *)
Definition removeEventListener (callback : LoggerEventListener) (L : ComfyLogger)
  : ComfyLogger * M bool :=
  let '(evs, foundListeners) :=
    foldl (λ '(evs, found) event,
             let listeners := listeners_of evs event in
             let '(listeners', found') :=
               remove_scan callback (length listeners) listeners found in
             (set_listeners event listeners' evs, found'))
          (eventListeners L, []) event_keys in
  (set_eventListeners evs L,
   (if bool_decide (length foundListeners = 0)
    then perform (ConsoleWarn "Listener not found for removal:" (ref callback))
    else mret ()) ;;
   mret (bool_decide (0 < length foundListeners))).

Section Logger.
Variable reset : string.
Variables trimStart trimEnd : string → string.
Variable G : Filter.

(** [#render], lines 225-244. *)

(** [typeof val === 'function' ? val() : String(val)] *)
Definition render_arg (val : value) : string :=
  match val with
  | VFunction f => apply_fn f None
  | _ => String_ val
  end.

(** The callback of the [reduce] of a tagged-template call. *)
Definition render_step (values : list value) (acc str : string) (i : Z) : string :=
  let val := index values (i - 1) in
  let part :=
    match val with
    | VUndefined => ""
    | _ => render_arg val
    end in
  acc +:+ part +:+ str.

Definition render (L : ComfyLogger) (strings : value) (values : list value) : string :=
  match strings with
  | VTemplate parts => reduce (render_step values) parts 0 ""
  | _ =>
      let separator := if truthy_bool (autoSpaceBetween (options L)) then " " else "" in
      join separator (map render_arg (strings :: values))
  end.

(** [#shouldLog], lines 260-281: the loop over the tags. *)
Fixpoint shouldLog_tags (tags : list string) : bool :=
  match tags with
  | [] => true
  | tag :: rest =>
      let whitelisted := false in
      if ComfyLoggerSettings.isTagBlacklisted G tag then
        let whitelisted :=
          if negb (ComfyLoggerSettings.isTagWhitelisted G tag) then true
          else whitelisted in
        if negb whitelisted then false else shouldLog_tags rest
      else shouldLog_tags rest
  end.

Definition shouldLog (L : ComfyLogger) : bool :=
  shouldLog_tags (default [] (tags (options L))).

(** The dispatch loop, lines 322-328, while no listener changes the array of
    listeners: the iterator of [for ... of] then meets the elements the array
    had when the loop began, in order.  [dispatch_live] below is the loop on
    the array as each listener leaves it, and [log_live_undisturbed] shows
    that the two agree when the listeners make no call on the logger. *)
Fixpoint dispatch (listeners : list LoggerEventListener) (resultObj : LogEvent) : M unit :=
  match listeners with
  | [] => mret ()
  | onLog :: rest =>
      try_catch (call onLog resultObj)
        (λ error, perform (ConsoleError "Error in log event listener:" error)) ;;
      dispatch rest resultObj
  end.

(** The message of a call that is not suppressed, lines 288-306: rendering,
    the "before" transformers, the reset code, the "after" transformers and
    the trimming. *)
Definition finalMessage (L : ComfyLogger) (strings : value) (values : list value)
  : string :=
  let result := render L strings values in
  let result := foldl (λ result transform, transform result) result
                  (before (transformers L)) in
  let finalMessage := result +:+ reset in
  let finalMessage := foldl (λ finalMessage transform, transform finalMessage)
                        finalMessage (after (transformers L)) in
  let finalMessage :=
    if truthy_string (trimBefore (options L)) then trimStart finalMessage
    else finalMessage in
  if truthy_string (trimAfter (options L)) then trimEnd finalMessage
  else finalMessage.

(** [log], lines 283-347, with listeners that make no call on the logger
    ([log_live] below is without this assumption).  The result is [None]
    where the source returns [undefined].  The request of [fetch] is
    recorded; its outcome comes after the call has returned. *)
Definition log (L : ComfyLogger) (strings : value) (values : list value)
  : M (option LogEvent) :=
  if negb (shouldLog L) then mret None
  else
    let finalMessage := finalMessage L strings values in
    (if truthy_bool (console (options L)) then perform (ConsoleLog finalMessage)
     else mret ()) ;;
    let resultObj := {| output := finalMessage; stripped := stripAnsi finalMessage |} in
    dispatch (listeners_of (eventListeners L) EvLog) resultObj ;;
    match externalLogging (options L) with
    | Some ext =>
        perform (Fetch (url ext) (default "POST" (method ext))
                   (default ∅ (headers ext) ∪ {[ "Content-Type" := "application/json" ]})
                   (stripped resultObj))
    | None => mret ()
    end ;;
    mret (Some resultObj).
End Logger.

(** ** The level methods, lines 372-402 *)


Section Levels.
Variable reset : string.
Variables trimStart trimEnd : string → string.
Variable G : Filter.
(** The codes of [ANSI.STYLE] and [ANSI.FG] that the level methods use. *)
Variables STYLE_bold FG_Red FG_Yellow FG_BrightBlue FG_Cyan FG_Green FG_White : string.

Definition bold : StyleFn := makeStyle reset STYLE_bold.
Definition red : StyleFn := makeStyle reset FG_Red.


Definition error (L : ComfyLogger) (strings : value) (values : list value)
  : M (option LogEvent) :=
  log reset trimStart trimEnd G L
    (VString (apply_fn bold (Some (apply_fn red (Some "ERROR:")))))
    (strings :: values).







End Levels.

(** ** [rainbow16], lines 517-527 *)

(** [text.split('')]: the code units of [text], each as a string. *)
Definition split_chars (text : string) : list string :=
  (λ c, String c "") <$> list_ascii_of_string text.

Section Rainbow16.
Variable reset : string.
(** The codes of [ANSI.FG] in the table of [rainbow16]. *)
Variables FG_Red FG_BrightRed FG_Yellow FG_BrightYellow FG_Green FG_BrightGreen
  FG_Cyan FG_BrightCyan FG_Blue FG_BrightBlue FG_Magenta FG_BrightMagenta : string.

Definition rainbow16_colors : list string :=
  [FG_Red; FG_BrightRed;
   FG_Yellow; FG_BrightYellow;
   FG_Green; FG_BrightGreen;
   FG_Cyan; FG_BrightCyan;
   FG_Blue; FG_BrightBlue;
   FG_Magenta; FG_BrightMagenta].

Definition rainbow16 (text : string) : string :=
  join ""
    (imap (λ i char,
             default "undefined"
               (rainbow16_colors !! (i mod length rainbow16_colors)) +:+ char)
          (split_chars text))
  +:+ reset.
End Rainbow16.

(** ** [nanoid], [src/util/random.ts] *)

Module Random.
Definition a : string :=
  "useandom-26T198340PX75pxJACKVERYMINDBUSHWOLF_GQZbfghjklqvwyzrict".

(** [a[i]] appended to a string: the code unit at [i], or ["undefined"]. *)
Definition char_at (i : Z) : string :=
  match (if (i <? 0)%Z then None else String.get (Z.to_nat i) a) with
  | Some c => String c ""
  | None => "undefined"
  end.

(** The loop [for (n = 0; n < length; n++) t += a[63 & r[n]]]: [count] is
    what is left of it; an element that [r] does not have reads as
    [undefined], which [&] takes as [0]. *)
Fixpoint nanoid_loop (r : list Z) (n count : nat) (t : string) : string :=
  match count with
  | 0 => t
  | S count' =>
      nanoid_loop r (S n) count' (t +:+ char_at (Z.land 63 (default 0%Z (r !! n))))
  end.

(** [nanoid(length)], with [r] the bytes that [crypto.getRandomValues] gave. *)
Definition nanoid (length : nat) (r : list Z) : string :=
  nanoid_loop r 0 length "".
End Random.

(** ** The command-line handlers, lines 88-101 *)

(** [value.split(sep)] for a separator of one code unit: [cur] is the piece
    being read. *)
Fixpoint split_go (sep : ascii) (s cur : string) : list string :=
  match s with
  | "" => [cur]
  | String c s' =>
      if Ascii.eqb c sep then cur :: split_go sep s' ""
      else split_go sep s' (cur +:+ String c "")
  end.

Definition split (sep : ascii) (s : string) : list string := split_go sep s "".

Section CliArgs.
(** [String.prototype.trim] of the host. *)
Variable trim : string → string.

Definition cli_blacklist_tags (value : string) (G : Filter) : Filter :=
  let tags := trim <$> split "," value in
  foldl (λ G tag, ComfyLoggerSettings.blacklistTag (inl tag) G) G tags.

Definition cli_whitelist_tags (value : string) (G : Filter) : Filter :=
  let tags := trim <$> split "," value in
  foldl (λ G tag, ComfyLoggerSettings.whitelistTag (inl tag) G) G tags.
End CliArgs.

(** ** [class], lines 252-258 *)

(** A logger with the style methods attached to it by [class]. *)
Record Instance := {
  logger : ComfyLogger;
  attached : gmap string StyleFn
}.

(** The members of the class, inherited by every instance, and the one
    public field of an instance. *)
Definition prototype_members : list string :=
  ["constructor"; "tags"; "transformBefore"; "transformAfter"; "addEventListener";
   "removeEventListener"; "configure"; "class"; "log"; "timestamp"; "error"; "bad";
   "warn"; "info"; "debug"; "ok"; "good"; "neutral"].

Definition instance_fields : list string := ["options"].

Definition quote : string := String "034"%char "".

Section Class.
(** The names every object inherits from [Object.prototype]. *)
Variable Object_prototype : gset string.

(** [name in this] *)
Definition has_property (name : string) (I : Instance) : Prop :=
  name ∈ instance_fields ∨ name ∈ dom (attached I)
  ∨ name ∈ prototype_members ∨ name ∈ Object_prototype.

#[global] Instance has_property_dec name I : Decision (has_property name I).
Proof. unfold has_property. apply _. Defined.

Definition class_ (name : string) (styleFn : StyleFn) (I : Instance) : M Instance :=
  if decide (has_property name I) then
    throw ("Cannot define style with name " +:+ quote +:+ name +:+ quote
           +:+ " as it conflicts with an existing property on the logger.")
  else
    mret {| logger := logger I; attached := <[name := styleFn]> (attached I) |}.
End Class.

(** ** [timestamp], lines 349-368 *)

(** What [timestamp] reads of [new Date()]. *)
Record Date := {
  getFullYear : Z;
  getMonth : nat;
  getDate : nat;
  getHours : nat;
  getMinutes : nat;
  getSeconds : nat;
  getMilliseconds : nat
}.

(** [String(n)] for an integer: its decimal digits, after ["-"] when it is
    negative. *)
Definition String_nat (n : nat) : string := NilZero.string_of_uint (Nat.to_uint n).
Definition String_Z (z : Z) : string := NilZero.string_of_int (Z.to_int z).

Fixpoint repeat_char (n : nat) (c : ascii) : string :=
  match n with
  | 0 => ""
  | S n' => String c (repeat_char n' c)
  end.

(** [s.padStart(targetLength, fill)] for a filler of one code unit. *)
Definition padStart (targetLength : nat) (fill : ascii) (s : string) : string :=
  repeat_char (targetLength - String.length s) fill +:+ s.

(** [s.replaceAll(token, value)] for a replacement [value] without [$]: the
    occurrences of [token] are taken from the left, without overlap ([skip]
    counts the code units of an occurrence still to pass); an empty [token]
    occurs before every code unit and at the end. *)
Fixpoint replaceAll_from (token value : string) (skip : nat) (s : string) : string :=
  match s with
  | "" => match token with "" => value | _ => "" end
  | String c s' =>
      match skip with
      | S n => replaceAll_from token value n s'
      | 0 =>
          if String.prefix token s then
            match token with
            | "" => value +:+ String c (replaceAll_from token value 0 s')
            | _ => value +:+ replaceAll_from token value (String.length token - 1) s'
            end
          else String c (replaceAll_from token value 0 s')
      end
  end.

Definition replaceAll (token value s : string) : string :=
  replaceAll_from token value 0 s.

(** The table [replacements], in the order of its keys. *)
Definition replacements (now : Date) : list (string * string) :=
  [("YYYY", String_Z (getFullYear now));
   ("MM", padStart 2 "0" (String_nat (getMonth now + 1)));
   ("DD", padStart 2 "0" (String_nat (getDate now)));
   ("HH", padStart 2 "0" (String_nat (getHours now)));
   ("mm", padStart 2 "0" (String_nat (getMinutes now)));
   ("ss", padStart 2 "0" (String_nat (getSeconds now)));
   ("SSS", padStart 3 "0" (String_nat (getMilliseconds now)))].

(** [timestamp(format)] at the time [now]; [format] is [None] when the
    argument is left out. *)
Definition timestamp (L : ComfyLogger) (format : option string) (now : Date) : string :=
  let format :=
    match format with
    | Some f => f
    | None => default "YYYY-MM-DD HH:mm:ss" (timestampFormat (options L))
    end in
  let fmt := format in
  let raw :=
    foldl (λ ts '(token, value), replaceAll token value ts) fmt (replacements now) in
  "[ " +:+ raw +:+ " ]".

(** ** Host functions: [trimStart] and [trimEnd] *)

(** White space and line terminators among the 8-bit code units: TAB, LF, VT,
    FF, CR, SP and NBSP. *)
Definition is_white_space (c : ascii) : bool :=
  let n := N_of_ascii c in
  ((9 <=? n) && (n <=? 13) || (n =? 32) || (n =? 160))%N.

(** [String.prototype.trimStart] and [String.prototype.trimEnd]. *)
Fixpoint js_trimStart (s : string) : string :=
  match s with
  | "" => ""
  | String c s' => if is_white_space c then js_trimStart s' else s
  end.

Fixpoint js_trimEnd (s : string) : string :=
  match s with
  | "" => ""
  | String c s' =>
      match js_trimEnd s' with
      | "" => if is_white_space c then "" else String c ""
      | t => String c t
      end
  end.

(** ** Listeners that call back into the logger *)

(** What a listener may do to the logger while it runs: calls of the methods
    that change the logger.  (A listener that calls [log] itself is not
    followed.) *)
Inductive reentry :=
| ReAddEventListener (listener : LoggerEventListener)
| ReRemoveEventListener (callback : LoggerEventListener)
| ReConfigure (p : PartialConfig)
| ReTransformBefore (f : string → string)
| ReTransformAfter (f : string → string).

(** One such call: the logger after it, and what it wrote to the console. *)
Definition reenter (op : reentry) (L : ComfyLogger) : ComfyLogger * list effect :=
  match op with
  | ReAddEventListener listener => (addEventListener EvLog listener L, [])
  | ReRemoveEventListener callback =>
      let '(L', (t, _)) := removeEventListener callback L in (L', t)
  | ReConfigure p => (configure p L, [])
  | ReTransformBefore f => (transformBefore (inr f) L, [])
  | ReTransformAfter f => (transformAfter (inr f) L, [])
  end.

Fixpoint reenter_all (ops : list reentry) (L : ComfyLogger) : ComfyLogger * list effect :=
  match ops with
  | [] => (L, [])
  | op :: rest =>
      let '(L', t) := reenter op L in
      let '(L'', t') := reenter_all rest L' in
      (L'', t ++ t')
  end.

Section Live.
Variable reset : string.
Variables trimStart trimEnd : string → string.
Variable G : Filter.
(** [during fn e]: the calls that the function of identity [fn] makes on the
    logger when it is called with [e], before it returns or throws. *)
Variable during : nat → LogEvent → list reentry.

(** The dispatch loop, lines 322-328, on the array as it is at each step:
    [i] is the index of the iterator of [for ... of], which ends when [i] is
    no index of the array any more.  [fuel] bounds the number of steps; the
    result is [None] when it does not suffice. *)
Fixpoint dispatch_live (fuel i : nat) (L : ComfyLogger) (resultObj : LogEvent)
  : option (ComfyLogger * list effect) :=
  match fuel with
  | 0 => None
  | S fuel' =>
      match listeners_of (eventListeners L) EvLog !! i with
      | None => Some (L, [])
      | Some onLog =>
          let '(L', t_during) := reenter_all (during (ref onLog) resultObj) L in
          let t_call :=
            Call (ref onLog) resultObj :: t_during ++
            match on_event onLog resultObj with
            | Some error => [ConsoleError "Error in log event listener:" error]
            | None => []
            end in
          '(L'', t) ← dispatch_live fuel' (S i) L' resultObj;
          Some (L'', t_call ++ t)
      end
  end.

(** [log], lines 283-347, with such listeners: the logger after the call, the
    effects and the result. *)
Definition log_live (fuel : nat) (L : ComfyLogger) (strings : value)
  (values : list value) : option (ComfyLogger * M (option LogEvent)) :=
  if negb (shouldLog G L) then Some (L, mret None)
  else
    let finalMessage := finalMessage reset trimStart trimEnd L strings values in
    let t_console :=
      if truthy_bool (console (options L)) then [ConsoleLog finalMessage] else [] in
    let resultObj := {| output := finalMessage; stripped := stripAnsi finalMessage |} in
    '(L', t) ← dispatch_live fuel 0 L resultObj;
    let t_request :=
      match externalLogging (options L') with
      | Some ext =>
          [Fetch (url ext) (default "POST" (method ext))
             (default ∅ (headers ext) ∪ {[ "Content-Type" := "application/json" ]})
             (stripped resultObj)]
      | None => []
      end in
    Some (L', (t_console ++ t ++ t_request, Normal (Some resultObj))).
End Live.

(** ** Vocabulary of the statements *)

(** [parts[0] + r(values[0]) + parts[1] + r(values[1]) + ... + parts[n]], with
    [values[i]] read as the host reads it ([undefined] past the end):
    [interleave r values rest] is what follows [parts[0]]. *)
Fixpoint interleave (r : value → string) (values : list value) (rest : list string)
  : string :=
  match rest with
  | [] => ""
  | p :: rest' => r (hd VUndefined values) +:+ p +:+ interleave r (tl values) rest'
  end.

Definition positional (r : value → string) (parts : list string) (values : list value)
  : string :=
  match parts with
  | [] => ""
  | p0 :: rest => p0 +:+ interleave r values rest
  end.

(** [typeof val === 'function'] *)
Definition is_function (val : value) : bool :=
  match val with VFunction _ => true | _ => false end.

(** What an interpolated value of a tagged-template call contributes. *)
Definition render_interpolation (val : value) : string :=
  match val with
  | VUndefined => ""
  | VFunction f => apply_fn f None
  | _ => String_ val
  end.

(** Objects with a single property. *)
Definition only_autoSpaceBetween (b : bool) : PartialConfig := {|
  p_autoSpaceBetween := Some (Some b); p_timestampFormat := None; p_trimBefore := None;
  p_trimAfter := None; p_externalLogging := None; p_console := None;
  p_tags := None; p_logErrorsToConsole := None
|}.

Definition only_tags (ts : list string) : PartialConfig := {|
  p_autoSpaceBetween := None; p_timestampFormat := None; p_trimBefore := None;
  p_trimAfter := None; p_externalLogging := None; p_console := None;
  p_tags := Some (Some ts); p_logErrorsToConsole := None
|}.

(** The usual reset sequence, [ESC [ 0 m], for the examples. *)
Definition sgr_reset : string := String ESC "[0m".

(** The names of the configuration properties, and a property read by name. *)
Inductive option_name :=
| KAutoSpaceBetween | KTimestampFormat | KTrimBefore | KTrimAfter
| KExternalLogging | KConsole | KTags | KLogErrorsToConsole.

Inductive option_value :=
| OBool (b : option bool)
| OString (s : option string)
| OExternal (e : option ComfyLoggerExternalLoggingOptions)
| OTags (ts : option (list string)).

Definition get (k : option_name) (o : LoggerRuntimeConfig) : option_value :=
  match k with
  | KAutoSpaceBetween => OBool (autoSpaceBetween o)
  | KTimestampFormat => OString (timestampFormat o)
  | KTrimBefore => OString (trimBefore o)
  | KTrimAfter => OString (trimAfter o)
  | KExternalLogging => OExternal (externalLogging o)
  | KConsole => OBool (console o)
  | KTags => OTags (tags o)
  | KLogErrorsToConsole => OBool (logErrorsToConsole o)
  end.

(** [mentioned k p]: the value [p] gives to [k], if [p] has the property. *)
Definition mentioned (k : option_name) (p : PartialConfig) : option option_value :=
  match k with
  | KAutoSpaceBetween => OBool <$> p_autoSpaceBetween p
  | KTimestampFormat => OString <$> p_timestampFormat p
  | KTrimBefore => OString <$> p_trimBefore p
  | KTrimAfter => OString <$> p_trimAfter p
  | KExternalLogging => OExternal <$> p_externalLogging p
  | KConsole => OBool <$> p_console p
  | KTags => OTags <$> p_tags p
  | KLogErrorsToConsole => OBool <$> p_logErrorsToConsole p
  end.

(** Listeners for the examples: one that returns, one that throws. *)
Definition quiet (n : nat) : LoggerEventListener :=
  {| ref := n; on_event := λ _, None |}.


(** [registered fn L]: [fn] is in the listener list of some event. *)
Definition registered (fn : LoggerEventListener) (L : ComfyLogger) : Prop :=
  ∃ event l, l ∈ listeners_of (eventListeners L) event ∧ ref l = ref fn.

(** What the dispatch loop does for one listener. *)
Definition dispatch_one (resultObj : LogEvent) (onLog : LoggerEventListener)
  : list effect :=
  Call (ref onLog) resultObj ::
  match on_event onLog resultObj with
  | Some error => [ConsoleError "Error in log event listener:" error]
  | None => []
  end.

(** The console write and the request of a call with message [msg]. *)
Definition console_write (L : ComfyLogger) (msg : string) : list effect :=
  if truthy_bool (console (options L)) then [ConsoleLog msg] else [].

Definition request (L : ComfyLogger) (resultObj : LogEvent) : list effect :=
  match externalLogging (options L) with
  | Some ext =>
      [Fetch (url ext) (default "POST" (method ext))
         (default ∅ (headers ext) ∪ {[ "Content-Type" := "application/json" ]})
         (stripped resultObj)]
  | None => []
  end.

(** A logger that forwards to an endpoint and does not write to the console. *)
Definition forwarding : PartialConfig := {|
  p_autoSpaceBetween := None; p_timestampFormat := None; p_trimBefore := None;
  p_trimAfter := None;
  p_externalLogging :=
    Some (Some {| url := "http://logs.test/in"; headers := None; method := None;
                  onError := None |});
  p_console := Some (Some false);
  p_tags := None; p_logErrorsToConsole := None
|}.

(** [contains c s]: the code unit [c] occurs in [s]. *)
Fixpoint contains (c : ascii) (s : string) : bool :=
  match s with
  | "" => false
  | String c' s' => Ascii.eqb c c' || contains c s'
  end.

(** [all_chars P s]: every code unit of [s] satisfies [P]. *)
Fixpoint all_chars (P : ascii → bool) (s : string) : bool :=
  match s with
  | "" => true
  | String c s' => P c && all_chars P s'
  end.

(** A CSI sequence as the styles use them: [ESC [ p m], [p] made of digits and
    semicolons. *)
Definition csi (p : string) : string := String ESC (String "[" (p +:+ "m")).

Definition is_csi (code : string) : Prop :=
  ∃ p, all_chars digit_or_semicolon p = true ∧ code = csi p.

(** [styled s v]: the text [s] is made of code units other than [ESC] and of
    CSI sequences, and [v] is what is left of it without the sequences. *)
Inductive styled : string → string → Prop :=
| styled_nil : styled "" ""
| styled_char c s v :
    c ≠ ESC → styled s v → styled (String c s) (String c v)
| styled_csi code s v :
    is_csi code → styled s v → styled (code +:+ s) v.

(** Styles stacked on a text, the innermost last: [c1(c2(...(x)))]. *)
Definition layers (reset : string) (codes : list string) (x : string) : string :=
  foldr (λ code t, apply_fn (makeStyle reset code) (Some t)) x codes.

(** A logger without transformers and without trimming. *)
Definition unprocessed (L : ComfyLogger) : Prop :=
  before (transformers L) = [] ∧ after (transformers L) = []
  ∧ truthy_string (trimBefore (options L)) = false
  ∧ truthy_string (trimAfter (options L)) = false.


(** The tags a call of [blacklistTag] or [whitelistTag] names. *)
Definition tags_of (tag : string + list string) : list string :=
  match tag with
  | inl t => [t]
  | inr ts => ts
  end.

(** [{ ...p1, ...p2 }] on partial option objects. *)
Definition merge_partial (p1 p2 : PartialConfig) : PartialConfig := {|
  p_autoSpaceBetween := spread (p_autoSpaceBetween p1) (Some <$> p_autoSpaceBetween p2);
  p_timestampFormat := spread (p_timestampFormat p1) (Some <$> p_timestampFormat p2);
  p_trimBefore := spread (p_trimBefore p1) (Some <$> p_trimBefore p2);
  p_trimAfter := spread (p_trimAfter p1) (Some <$> p_trimAfter p2);
  p_externalLogging := spread (p_externalLogging p1) (Some <$> p_externalLogging p2);
  p_console := spread (p_console p1) (Some <$> p_console p2);
  p_tags := spread (p_tags p1) (Some <$> p_tags p2);
  p_logErrorsToConsole := spread (p_logErrorsToConsole p1) (Some <$> p_logErrorsToConsole p2)
|}.

(** The object [{}]. *)
Definition empty_options : PartialConfig := {|
  p_autoSpaceBetween := None; p_timestampFormat := None; p_trimBefore := None;
  p_trimAfter := None; p_externalLogging := None; p_console := None;
  p_tags := None; p_logErrorsToConsole := None
|}.

(** The tokens of a timestamp format, what each stands for, and formats
    given as a sequence of tokens and of literal text. *)
Inductive token := TYYYY | TMM | TDD | THH | Tmm | Tss | TSSS.

Definition token_text (t : token) : string :=
  match t with
  | TYYYY => "YYYY" | TMM => "MM" | TDD => "DD" | THH => "HH"
  | Tmm => "mm" | Tss => "ss" | TSSS => "SSS"
  end.

Definition token_value (now : Date) (t : token) : string :=
  match t with
  | TYYYY => String_Z (getFullYear now)
  | TMM => padStart 2 "0" (String_nat (getMonth now + 1))
  | TDD => padStart 2 "0" (String_nat (getDate now))
  | THH => padStart 2 "0" (String_nat (getHours now))
  | Tmm => padStart 2 "0" (String_nat (getMinutes now))
  | Tss => padStart 2 "0" (String_nat (getSeconds now))
  | TSSS => padStart 3 "0" (String_nat (getMilliseconds now))
  end.

Inductive segment :=
| Tok (t : token)
| Lit (s : string).

(** The letters the tokens are made of. *)
Definition is_token_letter (c : ascii) : bool := contains c "YMDHmsS".

(** Literal text is text without a token letter. *)
Definition literal_ok (seg : segment) : Prop :=
  match seg with
  | Tok _ => True
  | Lit s => all_chars (λ c, negb (is_token_letter c)) s = true
  end.

Definition format_of (segs : list segment) : string :=
  foldr (λ seg acc, match seg with Tok t => token_text t | Lit s => s end +:+ acc)
        "" segs.

Definition formatted (now : Date) (segs : list segment) : string :=
  foldr (λ seg acc, match seg with Tok t => token_value now t | Lit s => s end +:+ acc)
        "" segs.

(** The rank of a token in the table, and a format after the tokens of rank
    below [k] have been replaced. *)
Definition rank (t : token) : nat :=
  match t with
  | TYYYY => 0 | TMM => 1 | TDD => 2 | THH => 3 | Tmm => 4 | Tss => 5 | TSSS => 6
  end.

Definition piece (k : nat) (now : Date) (seg : segment) : string :=
  match seg with
  | Tok t => if rank t <? k then token_value now t else token_text t
  | Lit s => s
  end.

Definition stage (k : nat) (now : Date) (segs : list segment) : string :=
  foldr (λ seg acc, piece k now seg +:+ acc) "" segs.

Definition digit_or_minus (c : ascii) : bool :=
  let n := N_of_ascii c in
  ((48 <=? n) && (n <=? 57) || (n =? 45))%N.

(** A call back into the logger that leaves the listener lists alone. *)
Definition keeps_listeners (op : reentry) : Prop :=
  match op with
  | ReAddEventListener _ | ReRemoveEventListener _ => False
  | ReConfigure _ | ReTransformBefore _ | ReTransformAfter _ => True
  end.

(** [settled during L e]: no listener registered on [L] adds or removes a
    listener when it is called with [e]. *)
Definition settled (during : nat → LogEvent → list reentry) (L : ComfyLogger)
  (e : LogEvent) : Prop :=
  Forall (λ l, Forall keeps_listeners (during (ref l) e))
         (listeners_of (eventListeners L) EvLog).



Definition undisturbed (fn : nat) (e : LogEvent) : list reentry := [].


(** ** Strings *)

Lemma append_cons (c : ascii) (s t : string) : String c s +:+ t = String c (s +:+ t).
Proof. reflexivity. Qed.

Lemma append_nil_l (s : string) : "" +:+ s = s.
Proof. reflexivity. Qed.

Lemma append_nil_r (s : string) : s +:+ "" = s.
Proof. induction s as [|c s IH]; [done|]. by rewrite append_cons, IH. Qed.

Lemma append_assoc (s1 s2 s3 : string) : (s1 +:+ s2) +:+ s3 = s1 +:+ (s2 +:+ s3).
Proof.
  induction s1 as [|c s1 IH]; [done|]. by rewrite !append_cons, IH.
Qed.

Lemma append_length (s1 s2 : string) :
  String.length (s1 +:+ s2) = String.length s1 + String.length s2.
Proof.
  induction s1 as [|c s1 IH]; [done|]. rewrite append_cons. cbn. by rewrite IH.
Qed.

(** ** [join] *)

Lemma join_from_pos separator xs k R :
  join_from separator xs (S k) R
  = R +:+ foldr (λ x acc, separator +:+ x +:+ acc) "" xs.
Proof.
  revert k R. induction xs as [|x xs IH]; intros k R; cbn.
  - by rewrite append_nil_r.
  - rewrite IH, bool_decide_eq_true_2 by lia. by rewrite !append_assoc.
Qed.

Lemma join_cons separator x xs :
  join separator (x :: xs) = x +:+ foldr (λ y acc, separator +:+ y +:+ acc) "" xs.
Proof. unfold join. cbn. apply join_from_pos. Qed.

Lemma concat_cons separator x xs :
  String.concat separator (x :: xs)
  = x +:+ foldr (λ y acc, separator +:+ y +:+ acc) "" xs.
Proof.
  revert x. induction xs as [|y xs IH]; intros x.
  - cbn. by rewrite append_nil_r.
  - change (String.concat separator (x :: y :: xs))
      with (x +:+ separator +:+ String.concat separator (y :: xs)).
    by rewrite IH.
Qed.

Lemma join_concat separator xs : join separator xs = String.concat separator xs.
Proof.
  destruct xs as [|x xs]; [done|]. by rewrite join_cons, concat_cons.
Qed.

(** ** Rendering *)

Lemma hd_drop_lookup (values : list value) k :
  hd VUndefined (drop k values) = default VUndefined (values !! k).
Proof.
  revert k. induction values as [|v values IH]; intros [|k]; cbn; auto.
Qed.

Lemma tl_drop (values : list value) k : tl (drop k values) = drop (S k) values.
Proof.
  revert k. induction values as [|v values IH]; intros [|k]; cbn; auto.
Qed.

Lemma index_nat values k : index values (Z.of_nat k) = default VUndefined (values !! k).
Proof.
  unfold index. destruct (Z.ltb_spec (Z.of_nat k) 0) as [?|_]; [lia|].
  by rewrite Nat2Z.id.
Qed.

(** The part a value contributes in [render_step]. *)
Lemma render_step_part values acc str k :
  render_step values acc str (Z.of_nat k + 1)
  = acc +:+ render_interpolation (default VUndefined (values !! k)) +:+ str.
Proof.
  unfold render_step. replace (Z.of_nat k + 1 - 1)%Z with (Z.of_nat k) by lia.
  rewrite index_nat. by destruct (default VUndefined (values !! k)).
Qed.

Lemma reduce_render_step values parts k acc :
  reduce (render_step values) parts (Z.of_nat k + 1) acc
  = acc +:+ interleave render_interpolation (drop k values) parts.
Proof.
  revert k acc. induction parts as [|p parts IH]; intros k acc; cbn [reduce interleave].
  - by rewrite append_nil_r.
  - rewrite render_step_part.
    replace (Z.of_nat k + 1 + 1)%Z with (Z.of_nat (S k) + 1)%Z by lia.
    rewrite IH, hd_drop_lookup, tl_drop. by rewrite !append_assoc.
Qed.

Lemma render_template L parts values :
  render L (VTemplate parts) values = positional render_interpolation parts values.
Proof.
  destruct parts as [|p0 rest]; [done|].
  unfold render, positional. cbn [reduce].
  change (0 + 1)%Z with (Z.of_nat 0 + 1)%Z. by rewrite reduce_render_step.
Qed.

Lemma interleave_app r vs1 vs ps1 ps :
  length vs1 = length ps1 →
  interleave r (vs1 ++ vs) (ps1 ++ ps) = interleave r vs1 ps1 +:+ interleave r vs ps.
Proof.
  revert ps1. induction vs1 as [|v vs1 IH]; intros [|p ps1] Hlen; simplify_eq/=; [done|].
  rewrite IH by done. by rewrite !append_assoc.
Qed.

(** C3 (as amended): in a tagged-template call the rendered string, before the
    transformers, is [parts[0] + r(values[0]) + parts[1] + ... + parts[n]],
    where [r] gives the empty string for [undefined], invokes a callable with
    no argument and string-converts any other value. *)
Theorem render_tagged_template (L : ComfyLogger) (parts : list string)
  (values : list value) :
  render L (VTemplate parts) values = positional render_interpolation parts values
  ∧ render_interpolation VUndefined = ""
  ∧ (∀ f, render_interpolation (VFunction f) = apply_fn f None)
  ∧ (∀ v, v ≠ VUndefined → is_function v = false →
          render_interpolation v = String_ v).
Proof.
  split; [apply render_template|].
  repeat split; try done.
  intros v Hu Hf. by destruct v.
Qed.

(** C3, as stated, fails: with [r] string-converting whatever is not callable,
    the template [a${undefined}b] would render as ["aundefinedb"]; the code
    renders ["ab"]. *)
Lemma render_tagged_template_undefined_counterexample :
  render fresh (VTemplate ["a"; "b"]) [VUndefined] = "ab"
  ∧ positional render_arg ["a"; "b"] [VUndefined] = "aundefinedb"
  ∧ render fresh (VTemplate ["a"; "b"]) [VUndefined]
    ≠ positional render_arg ["a"; "b"] [VUndefined].
Proof. by repeat split. Qed.

(** C10: in a tagged-template call an interpolated value that is [undefined]
    contributes the empty string: it is neither invoked nor string-converted.
    The rendering is the parts and values before it, as they render,
    directly followed by the parts and values after it, with nothing in
    between; it is the rendering with the empty string in the place of
    [undefined], and not the one with the text ["undefined"] there. *)
Theorem render_undefined_interpolation (L : ComfyLogger)
  (parts1 parts2 : list string) (values1 values2 : list value) :
  length parts1 = S (length values1) →
  render L (VTemplate (parts1 ++ parts2)) (values1 ++ VUndefined :: values2)
  = positional render_interpolation parts1 values1
    +:+ positional render_interpolation parts2 values2
  ∧ render L (VTemplate (parts1 ++ parts2)) (values1 ++ VUndefined :: values2)
    = render L (VTemplate (parts1 ++ parts2)) (values1 ++ VString "" :: values2)
  ∧ (parts2 ≠ [] →
     render L (VTemplate (parts1 ++ parts2)) (values1 ++ VUndefined :: values2)
     ≠ render L (VTemplate (parts1 ++ parts2))
         (values1 ++ VString "undefined" :: values2)).
Proof.
  intros Hlen. rewrite !render_template.
  destruct parts1 as [|p0 parts1]; simplify_eq/=.
  rewrite !interleave_app by done.
  assert (∀ v, interleave render_interpolation (v :: values2) parts2
               = match parts2 with
                 | [] => ""
                 | q0 :: _ => render_interpolation v
                 end +:+ positional render_interpolation parts2 values2) as Hjoint.
  { intros v. destruct parts2 as [|q0 parts2]; [done|]. cbn. done. }
  rewrite !Hjoint. split; [|split].
  - rewrite append_assoc. do 2 f_equal. by destruct parts2.
  - by destruct parts2.
  - intros Hparts2. destruct parts2 as [|q0 parts2]; [done|]. cbn [render_interpolation String_].
    intros Heq. apply (f_equal String.length) in Heq.
    rewrite !append_length in Heq. cbn in Heq. lia.
Qed.

Lemma render_undefined_interpolation_witness :
  render fresh (VTemplate ["x = "; "; y = "; "."]) [VUndefined; VString "2"]
  = "x = ; y = 2.".
Proof.
  apply (proj1 (render_undefined_interpolation fresh ["x = "] ["; y = "; "."] []
                  [VString "2"] eq_refl)).
Defined.

(** C4: the style function [makeStyle code] returns [code] when applied to no
    argument (or to [undefined]) and [code + x + reset] when applied to a
    text [x]. *)
Theorem makeStyle_contract (reset code : string) :
  apply_fn (makeStyle reset code) None = code
  ∧ ∀ x : string, apply_fn (makeStyle reset code) (Some x) = code +:+ x +:+ reset.
Proof. split; [|intros x]; reflexivity. Qed.

(** ** Ordinary calls *)

(** C5: in an ordinary call every argument is invoked with no argument when it
    is callable and string-converted otherwise, and the renderings are joined
    with one space when [autoSpaceBetween] is on and with nothing when it is
    off; [log("a", "b")] gives ["a b"] followed by the reset code with
    auto-spacing on and ["ab"] followed by the reset code with it off. *)
Theorem log_ordinary_call (reset : string) (trimStart trimEnd : string → string)
  (L : ComfyLogger) (strings : value) (values : list value) :
  is_template strings = false →
  render L strings values
  = String.concat (if truthy_bool (autoSpaceBetween (options L)) then " " else "")
      (map render_arg (strings :: values))
  ∧ (∀ f, render_arg (VFunction f) = apply_fn f None)
  ∧ (∀ v, is_function v = false → render_arg v = String_ v)
  ∧ log reset trimStart trimEnd internalGlobalConfig
      (configure (only_autoSpaceBetween true) fresh) (VString "a") [VString "b"]
    = ([ConsoleLog ("a b" +:+ reset)],
       Normal (Some {| output := "a b" +:+ reset;
                       stripped := stripAnsi ("a b" +:+ reset) |}))
  ∧ log reset trimStart trimEnd internalGlobalConfig
      (configure (only_autoSpaceBetween false) fresh) (VString "a") [VString "b"]
    = ([ConsoleLog ("ab" +:+ reset)],
       Normal (Some {| output := "ab" +:+ reset;
                       stripped := stripAnsi ("ab" +:+ reset) |})).
Proof.
  intros Hordinary. split.
  - rewrite <- join_concat. by destruct strings.
  - repeat split; try done.
    intros v Hv. by destruct v.
Qed.

Lemma log_ordinary_call_witness :
  render fresh (VString "a") [VOther "1"; VFunction (makeStyle sgr_reset "<")]
  = "a 1 <".
Proof.
  pose proof (log_ordinary_call sgr_reset id id fresh (VString "a")
                [VOther "1"; VFunction (makeStyle sgr_reset "<")] eq_refl) as [H _].
  exact H.
Defined.

(** ** Configuration *)

(** C8: [configure p] leaves every property that [p] does not mention as it
    was and gives every property that [p] mentions the value [p] has for it;
    listeners and transformers are not touched. *)
Theorem configure_merge (p : PartialConfig) (L : ComfyLogger) (k : option_name) :
  (mentioned k p = None →
   get k (options (configure p L)) = get k (options L))
  ∧ (∀ v, mentioned k p = Some v → get k (options (configure p L)) = v)
  ∧ eventListeners (configure p L) = eventListeners L
  ∧ transformers (configure p L) = transformers L.
Proof.
  repeat split.
  - destruct k; cbn; intros Hk; apply fmap_None in Hk; by rewrite Hk.
  - intros v. destruct k; cbn; intros Hk;
      apply fmap_Some in Hk as (x & Hx & ->); by rewrite Hx.
Qed.

Lemma configure_merge_witness :
  get KConsole (options (configure (only_tags ["db"]) fresh)) = OBool (Some true)
  ∧ get KTags (options (configure (only_tags ["db"]) fresh)) = OTags (Some ["db"]).
Proof.
  split.
  - apply (proj1 (configure_merge (only_tags ["db"]) fresh KConsole)).
    reflexivity.
  - apply (proj1 (proj2 (configure_merge (only_tags ["db"]) fresh KTags))).
    reflexivity.
Defined.

(** ** The tag filter *)

(** What the loop of [#shouldLog] computes: a call goes through unless some
    tag of the logger is both blacklisted and whitelisted. *)
Lemma shouldLog_tags_forallb G tags :
  shouldLog_tags G tags
  = forallb (λ tag, negb (ComfyLoggerSettings.isTagBlacklisted G tag
                          && ComfyLoggerSettings.isTagWhitelisted G tag)) tags.
Proof.
  induction tags as [|tag tags IH]; [done|]. cbn.
  destruct (ComfyLoggerSettings.isTagBlacklisted G tag),
    (ComfyLoggerSettings.isTagWhitelisted G tag); cbn; auto.
Qed.

(** C1, the code at a failing input: the tag [T] is blacklisted and not
    whitelisted, the logger has the tag [T], and the call is not suppressed:
    it writes to the console, calls the listener and returns the pair. *)
Theorem log_blacklisted_tag_goes_through (reset : string)
  (trimStart trimEnd : string → string) :
  let G := ComfyLoggerSettings.blacklistTag (inl "T") internalGlobalConfig in
  let L := addEventListener EvLog (quiet 1) (configure (only_tags ["T"]) fresh) in
  let resultObj := {| output := "a" +:+ reset; stripped := stripAnsi ("a" +:+ reset) |} in
  ComfyLoggerSettings.isTagBlacklisted G "T" = true
  ∧ ComfyLoggerSettings.isTagWhitelisted G "T" = false
  ∧ shouldLog G L = true
  ∧ log reset trimStart trimEnd G L (VString "a") []
    = ([ConsoleLog ("a" +:+ reset); Call 1 resultObj], Normal (Some resultObj)).
Proof. repeat split. Qed.

(** C2, the code at a failing input: the tag [T] is both blacklisted and
    whitelisted, the logger has no other tag, and the call is suppressed:
    no effect and no result. *)
Theorem log_whitelisted_tag_suppressed (reset : string)
  (trimStart trimEnd : string → string) :
  let G := ComfyLoggerSettings.whitelistTag (inl "T")
             (ComfyLoggerSettings.blacklistTag (inl "T") internalGlobalConfig) in
  let L := addEventListener EvLog (quiet 1) (configure (only_tags ["T"]) fresh) in
  ComfyLoggerSettings.isTagBlacklisted G "T" = true
  ∧ ComfyLoggerSettings.isTagWhitelisted G "T" = true
  ∧ tags (options L) = Some ["T"]
  ∧ shouldLog G L = false
  ∧ log reset trimStart trimEnd G L (VString "a") [] = ([], Normal None).
Proof. repeat split. Qed.

(** ** Dispatch *)

Lemma call_trace onLog e :
  call onLog e
  = ([Call (ref onLog) e],
     match on_event onLog e with
     | None => Normal ()
     | Some error => Throw error
     end).
Proof. unfold call. cbn. by destruct (on_event onLog e). Qed.

(** The loop completes normally whatever the listeners do, and its trace is
    that of the listeners one after the other. *)
Lemma dispatch_trace listeners resultObj :
  dispatch listeners resultObj
  = (listeners ≫= dispatch_one resultObj, Normal ()).
Proof.
  induction listeners as [|onLog rest IH]; [done|].
  cbn [dispatch]. rewrite call_trace, IH. unfold dispatch_one.
  destruct (on_event onLog resultObj) eqn:E; cbn; by rewrite E.
Qed.

Lemma calls_dispatch_one resultObj listeners :
  calls (listeners ≫= dispatch_one resultObj)
  = (λ l, (ref l, resultObj)) <$> listeners.
Proof.
  induction listeners as [|l rest IH]; [done|].
  cbn. unfold calls in *. rewrite omap_app, IH.
  by destruct (on_event l resultObj).
Qed.

Lemma console_errors_dispatch_one resultObj listeners :
  console_errors (listeners ≫= dispatch_one resultObj)
  = omap (λ l, on_event l resultObj) listeners.
Proof.
  induction listeners as [|l rest IH]; [done|].
  cbn. unfold console_errors in *. rewrite omap_app, IH.
  by destruct (on_event l resultObj).
Qed.

Section LogRun.
Variable reset : string.
Variables trimStart trimEnd : string → string.
Variable G : Filter.

(** A suppressed call does nothing. *)
Lemma log_suppressed L strings values :
  shouldLog G L = false →
  log reset trimStart trimEnd G L strings values = ([], Normal None).
Proof. intros H. unfold log. by rewrite H. Qed.

(** The trace of a call that is not suppressed: the console write, the
    dispatch, the request. *)
Lemma log_run L strings values :
  shouldLog G L = true →
  let msg := finalMessage reset trimStart trimEnd L strings values in
  let resultObj := {| output := msg; stripped := stripAnsi msg |} in
  log reset trimStart trimEnd G L strings values
  = (console_write L msg
     ++ (ev_log (eventListeners L) ≫= dispatch_one resultObj)
     ++ request L resultObj,
     Normal (Some resultObj)).
Proof.
  intros H msg resultObj. unfold log, console_write, request. rewrite H. cbn [negb].
  fold msg. fold resultObj. cbn [listeners_of]. rewrite dispatch_trace.
  destruct (truthy_bool (console (options L))), (externalLogging (options L));
    cbn; rewrite ?app_nil_r; done.
Qed.
End LogRun.

Lemma calls_console_write L msg : calls (console_write L msg) = [].
Proof. unfold console_write. by destruct (truthy_bool _). Qed.

Lemma calls_request L resultObj : calls (request L resultObj) = [].
Proof. unfold request. by destruct (externalLogging _). Qed.

Lemma console_errors_console_write L msg : console_errors (console_write L msg) = [].
Proof. unfold console_write. by destruct (truthy_bool _). Qed.

Lemma console_errors_request L resultObj : console_errors (request L resultObj) = [].
Proof. unfold request. by destruct (externalLogging _). Qed.

(** The calls and the console errors of a whole trace. *)
Lemma calls_log_trace L msg resultObj :
  calls (console_write L msg
         ++ (ev_log (eventListeners L) ≫= dispatch_one resultObj)
         ++ request L resultObj)
  = (λ l, (ref l, resultObj)) <$> ev_log (eventListeners L).
Proof.
  unfold calls. rewrite !omap_app. fold (calls (console_write L msg)).
  fold (calls (request L resultObj)).
  fold (calls (ev_log (eventListeners L) ≫= dispatch_one resultObj)).
  by rewrite calls_console_write, calls_request, calls_dispatch_one, app_nil_r.
Qed.

Lemma console_errors_log_trace L msg resultObj :
  console_errors (console_write L msg
                  ++ (ev_log (eventListeners L) ≫= dispatch_one resultObj)
                  ++ request L resultObj)
  = omap (λ l, on_event l resultObj) (ev_log (eventListeners L)).
Proof.
  unfold console_errors. rewrite !omap_app. fold (console_errors (console_write L msg)).
  fold (console_errors (request L resultObj)).
  fold (console_errors (ev_log (eventListeners L) ≫= dispatch_one resultObj)).
  by rewrite console_errors_console_write, console_errors_request,
    console_errors_dispatch_one, app_nil_r.
Qed.

(** The listeners a call reaches. *)
Lemma log_calls reset trimStart trimEnd G L strings values :
  (calls (log reset trimStart trimEnd G L strings values).1).*1
  = if shouldLog G L then ref <$> ev_log (eventListeners L) else [].
Proof.
  destruct (shouldLog G L) eqn:H.
  - rewrite log_run by done. cbn [fst].
    rewrite calls_log_trace, <- list_fmap_compose. done.
  - by rewrite log_suppressed.
Qed.

(** ** Removing a listener *)

Lemma take_delete {A} (l : list A) i : take i (delete i l) = take i l.
Proof.
  revert i. induction l as [|x l IH]; intros [|i]; cbn; [done..|]. by rewrite IH.
Qed.

Lemma drop_delete {A} (l : list A) i : drop i (delete i l) = drop (S i) l.
Proof.
  revert i. induction l as [|x l IH]; intros [|i]; cbn; [done..|].
  rewrite IH. by destruct l.
Qed.

Lemma filter_all {A} (P : A → Prop) `{!∀ x, Decision (P x)} (l : list A) :
  (∀ x, x ∈ l → P x) → filter P l = l.
Proof.
  induction l as [|x l IH]; intros Hall; [done|].
  rewrite filter_cons_True by (apply Hall; left).
  f_equal. apply IH. intros y Hy. apply Hall. by right.
Qed.

Lemma filter_none {A} (P : A → Prop) `{!∀ x, Decision (P x)} (l : list A) :
  (∀ x, x ∈ l → ¬ P x) → filter P l = [].
Proof.
  induction l as [|x l IH]; intros Hnone; [done|].
  rewrite filter_cons_False by (apply Hnone; left).
  apply IH. intros y Hy. apply Hnone. by right.
Qed.

(** The scan from index [n - 1] down to [0] takes the matching listeners out
    of the first [n] and records one find for each. *)
Lemma remove_scan_spec callback n listeners found :
  n ≤ length listeners →
  remove_scan callback n listeners found
  = (filter (λ l, ref l ≠ ref callback) (take n listeners) ++ drop n listeners,
     found ++ replicate
       (length (filter (λ l, ref l = ref callback) (take n listeners))) callback).
Proof.
  revert listeners found.
  induction n as [|i IH]; intros listeners found Hn.
  - cbn. by rewrite drop_0, app_nil_r.
  - cbn [remove_scan].
    destruct (lookup_lt_is_Some_2 listeners i) as [l Hl]; [lia|].
    rewrite Hl, (take_S_r _ _ _ Hl), !filter_app.
    unfold same_function. case_bool_decide as Hsame.
    + rewrite IH by (rewrite length_delete by eauto; lia).
      rewrite take_delete, drop_delete.
      rewrite (filter_cons_False (λ l, ref l ≠ ref callback)) by tauto.
      rewrite (filter_cons_True (λ l, ref l = ref callback)) by done.
      rewrite !filter_nil.
      rewrite app_nil_r, length_app, replicate_add. cbn [length replicate].
      by rewrite <- !(assoc_L (++)), <- replicate_cons_app.
    + rewrite IH by lia. rewrite (drop_S _ _ _ Hl).
      rewrite (filter_cons_True (λ l, ref l ≠ ref callback)) by done.
      rewrite (filter_cons_False (λ l, ref l = ref callback)) by done.
      rewrite !filter_nil.
      by rewrite app_nil_r, <- (assoc_L (++)).
Qed.

(** The call as a whole: every match is taken out, and the result says
    whether there was one. *)
Lemma removeEventListener_run callback L :
  let listeners := ev_log (eventListeners L) in
  let n := length (filter (λ l, ref l = ref callback) listeners) in
  removeEventListener callback L
  = (set_eventListeners
       {| ev_log := filter (λ l, ref l ≠ ref callback) listeners |} L,
     (if bool_decide (n = 0)
      then [ConsoleWarn "Listener not found for removal:" (ref callback)]
      else [],
      Normal (bool_decide (0 < n)))).
Proof.
  intros listeners n. unfold removeEventListener. cbn [foldl event_keys listeners_of].
  fold listeners. rewrite remove_scan_spec by done.
  rewrite firstn_all, drop_all, app_nil_r. cbn [app set_listeners].
  rewrite length_replicate. fold n.
  by destruct (bool_decide (n = 0)).
Qed.

(** C7: [removeEventListener fn] on a logger where [fn] is not registered
    warns, returns [false] and leaves the logger as it was; where [fn] is
    registered it returns [true] and takes every instance of [fn] out of every
    listener list, keeping the others in their order, so that no later call
    of [log] reaches [fn]. *)
Theorem removeEventListener_spec (fn : LoggerEventListener) (L : ComfyLogger) :
  (¬ registered fn L →
   removeEventListener fn L
   = (L, ([ConsoleWarn "Listener not found for removal:" (ref fn)], Normal false)))
  ∧ (registered fn L →
     ∃ L',
       removeEventListener fn L = (L', ([], Normal true))
       ∧ (∀ event,
            listeners_of (eventListeners L') event
            = filter (λ l, ref l ≠ ref fn) (listeners_of (eventListeners L) event))
       ∧ ¬ registered fn L'
       ∧ options L' = options L
       ∧ transformers L' = transformers L
       ∧ ∀ reset trimStart trimEnd G strings values,
           ref fn ∉ (calls (log reset trimStart trimEnd G L' strings values).1).*1).
Proof.
  rewrite removeEventListener_run. split.
  - intros Hnot.
    assert (∀ l, l ∈ ev_log (eventListeners L) → ref l ≠ ref fn) as Hall.
    { intros l Hl Heq. apply Hnot. by exists EvLog, l. }
    rewrite (filter_none (λ l, ref l = ref fn)) by (intros l Hl; by apply Hall).
    rewrite filter_all by done.
    by destruct L as [o [ls] ts].
  - intros (event & l & Hl & Heq). destruct event. cbn [listeners_of] in Hl.
    assert (0 < length (filter (λ l, ref l = ref fn) (ev_log (eventListeners L))))
      as Hpos.
    { assert (l ∈ filter (λ l, ref l = ref fn) (ev_log (eventListeners L))) as Hin
        by (by apply list_elem_of_filter).
      destruct (filter _ _); [by apply elem_of_nil in Hin | cbn; lia]. }
    eexists. split; [|split; [|split; [|split; [|split]]]].
    + rewrite bool_decide_eq_false_2 by lia. by rewrite bool_decide_eq_true_2 by lia.
    + by intros [].
    + intros ([] & l' & Hl' & Heq'). cbn in Hl'.
      apply list_elem_of_filter in Hl' as [Hne _]. done.
    + done.
    + done.
    + intros reset trimStart trimEnd G strings values. rewrite log_calls.
      destruct (shouldLog _ _); [|apply not_elem_of_nil]. cbn.
      intros (l' & Heq' & Hl')%list_elem_of_fmap.
      apply list_elem_of_filter in Hl' as [Hne _]. done.
Qed.

Lemma removeEventListener_spec_witness :
  removeEventListener (quiet 3) (addEventListener EvLog (quiet 1) fresh)
  = (addEventListener EvLog (quiet 1) fresh,
     ([ConsoleWarn "Listener not found for removal:" 3], Normal false))
  ∧ ∃ L',
      removeEventListener (quiet 1)
        (addEventListener EvLog (quiet 1)
           (addEventListener EvLog (quiet 2)
              (addEventListener EvLog (quiet 1) fresh)))
      = (L', ([], Normal true))
      ∧ ref <$> listeners_of (eventListeners L') EvLog = [2].
Proof.
  split.
  - apply (proj1 (removeEventListener_spec (quiet 3)
                    (addEventListener EvLog (quiet 1) fresh))).
    intros ([] & l & Hl & Heq). cbn in Hl.
    apply list_elem_of_singleton in Hl as ->. discriminate Heq.
  - destruct (proj2 (removeEventListener_spec (quiet 1)
                       (addEventListener EvLog (quiet 1)
                          (addEventListener EvLog (quiet 2)
                             (addEventListener EvLog (quiet 1) fresh)))))
      as (L' & Hrun & Hlisteners & _).
    { exists EvLog, (quiet 1). split; [left | reflexivity]. }
    exists L'. split; [exact Hrun|]. by rewrite Hlisteners.
Defined.

(** ** Stripping *)

(** Whatever the matcher accepts is a word of the expression, followed by
    what the continuation was given. *)
Lemma star_greedy_sound g p k s rest :
  star_greedy p k s = Some rest →
  ∃ w s', s = w +:+ s' ∧ matches (Star g p) w ∧ k s' = Some rest.
Proof.
  revert rest. induction s as [|c s IH]; intros rest; cbn.
  - intros Hk. exists "", "". eauto using matches.
  - destruct (p c) eqn:Hp.
    + destruct (star_greedy p k s) as [rest'|] eqn:Hs.
      * intros [= ->]. destruct (IH _ eq_refl) as (w & s' & -> & Hw & Hk).
        exists (String c w), s'. eauto using matches.
      * intros Hk. exists "", (String c s). eauto using matches.
    + intros Hk. exists "", (String c s). eauto using matches.
Qed.

Lemma star_lazy_sound g p k s rest :
  star_lazy p k s = Some rest →
  ∃ w s', s = w +:+ s' ∧ matches (Star g p) w ∧ k s' = Some rest.
Proof.
  revert rest. induction s as [|c s IH]; intros rest; cbn.
  - destruct (k "") eqn:Hk; [|done]. intros [= ->].
    exists "", "". eauto using matches.
  - destruct (k (String c s)) eqn:Hk.
    + intros [= ->]. exists "", (String c s). eauto using matches.
    + destruct (p c) eqn:Hp; [|done]. intros Hs.
      destruct (IH _ Hs) as (w & s' & -> & Hw & Hk').
      exists (String c w), s'. eauto using matches.
Qed.

Lemma exec_sound r s k rest :
  exec r s k = Some rest →
  ∃ w s', s = w +:+ s' ∧ matches r w ∧ k s' = Some rest.
Proof.
  revert s k rest.
  induction r as [c|p|r1 IH1 r2 IH2|r1 IH1 r2 IH2|g p]; intros s k rest; cbn.
  - destruct s as [|c' s]; [done|].
    destruct (Ascii.eqb_spec c c') as [<-|]; [|done].
    intros Hk. exists (String c ""), s. eauto using matches.
  - destruct s as [|c' s]; [done|].
    destruct (p c') eqn:Hp; [|done].
    intros Hk. exists (String c' ""), s. eauto using matches.
  - intros H1. destruct (IH1 _ _ _ H1) as (w1 & s1 & -> & Hw1 & H2).
    destruct (IH2 _ _ _ H2) as (w2 & s2 & -> & Hw2 & Hk).
    exists (w1 +:+ w2), s2. rewrite append_assoc. eauto using matches.
  - destruct (exec r1 s k) as [rest'|] eqn:H1.
    + intros [= ->]. destruct (IH1 _ _ _ H1) as (w & s' & -> & Hw & Hk).
      exists w, s'. eauto using matches.
    + intros H2. destruct (IH2 _ _ _ H2) as (w & s' & -> & Hw & Hk).
      exists w, s'. eauto using matches.
  - destruct g; [apply star_greedy_sound | apply star_lazy_sound].
Qed.

(** Where no part of the text is a word of the pattern, nothing is dropped. *)
Lemma replace_from_no_match r t :
  (∀ pre w suf, t = pre +:+ w +:+ suf → ¬ matches r w) →
  replace_from r 0 t = t.
Proof.
  induction t as [|c t IH]; intros Hfree; [done|]. cbn.
  destruct (exec r (String c t) Some) as [rest|] eqn:Hexec.
  - destruct (exec_sound _ _ _ _ Hexec) as (w & s' & Hsplit & Hw & [= ->]).
    destruct (Hfree "" w rest); done.
  - f_equal. apply IH. intros pre w suf -> Hw.
    apply (Hfree (String c pre) w suf); done.
Qed.

(** Every word of the escape-removal pattern starts with [ESC]. *)
Lemma ansi_pattern_starts_with_ESC w :
  matches ansi_pattern w → ∃ w', w = String ESC w'.
Proof.
  unfold ansi_pattern. intros Hw. inversion Hw as [| |r1 r2 w1 w2 H1 H2| | | |]; subst.
  inversion H1; subst. by eexists.
Qed.

Lemma contains_app c pre s : contains c (pre +:+ String c s) = true.
Proof.
  induction pre as [|c' pre IH].
  - rewrite append_nil_l. cbn. by rewrite Ascii.eqb_refl.
  - rewrite append_cons. cbn. rewrite IH. by destruct (Ascii.eqb c c').
Qed.

(** A text without [ESC] has no part that the pattern matches. *)
Lemma no_ESC_no_match t :
  contains ESC t = false →
  ∀ pre w suf, t = pre +:+ w +:+ suf → ¬ matches ansi_pattern w.
Proof.
  intros Hfree pre w suf -> Hw.
  destruct (ansi_pattern_starts_with_ESC w Hw) as [w' ->].
  rewrite append_cons, contains_app in Hfree. done.
Qed.

(** C9: on a text no part of which is matched by the escape-removal pattern
    (a CSI sequence [ESC [ ... m] or an OSC-8 sequence [ESC ] 8 ; ; ... BEL]),
    stripping is the identity. *)
Theorem stripAnsi_identity (t : string) :
  (∀ pre w suf, t = pre +:+ w +:+ suf → ¬ matches ansi_pattern w) →
  stripAnsi t = t.
Proof. intros Hfree. unfold stripAnsi, replace_all. by apply replace_from_no_match. Qed.

Lemma stripAnsi_identity_witness : stripAnsi "Hello, Bob! [0m" = "Hello, Bob! [0m".
Proof.
  apply (stripAnsi_identity "Hello, Bob! [0m").
  apply no_ESC_no_match. reflexivity.
Defined.

(** The pattern at work: colour codes and hyperlink brackets go, a sequence
    that does not end in [m] stays. *)
Example stripAnsi_styled :
  stripAnsi (String ESC "[1m" +:+ String ESC "[31mERROR:" +:+ String ESC "[0m"
             +:+ String ESC "[0m disk full" +:+ sgr_reset)
  = "ERROR: disk full".
Proof. reflexivity. Qed.

Example stripAnsi_hyperlink :
  stripAnsi (String ESC "]8;;http://example.com" +:+ String BEL "site"
             +:+ String ESC "]8;;" +:+ String BEL "")
  = "site".
Proof. reflexivity. Qed.

Example stripAnsi_unterminated :
  stripAnsi (String ESC "[31;1xhi") = String ESC "[31;1xhi".
Proof. reflexivity. Qed.

(** Conversely, the matcher finds a match wherever a word of the expression
    starts, so that a text holding an escape sequence does not come out of
    the stripping unchanged. *)
Lemma star_greedy_continue p k s rest :
  k s = Some rest → is_Some (star_greedy p k s).
Proof.
  intros Hk. destruct s as [|c s]; cbn; [by rewrite Hk|].
  destruct (p c); [|by rewrite Hk].
  destruct (star_greedy p k s); [done|by rewrite Hk].
Qed.

Lemma star_lazy_continue p k s rest :
  k s = Some rest → is_Some (star_lazy p k s).
Proof. intros Hk. destruct s; cbn; by rewrite Hk. Qed.

Lemma exec_complete r w :
  matches r w →
  ∀ k s' rest, k s' = Some rest → is_Some (exec r (w +:+ s') k).
Proof.
  induction 1 as [c|p c Hp|r1 r2 w1 w2 _ IH1 _ IH2|r1 r2 w _ IH|r1 r2 w _ IH
                  |g p|g p c w Hp _ IH]; intros k s' rest Hk.
  - rewrite append_cons, append_nil_l. cbn. by rewrite Ascii.eqb_refl, Hk.
  - rewrite append_cons, append_nil_l. cbn. by rewrite Hp, Hk.
  - rewrite append_assoc. cbn [exec].
    destruct (IH2 k s' rest Hk) as [rest2 H2].
    by apply (IH1 (λ s1, exec r2 s1 k) (w2 +:+ s') rest2).
  - cbn [exec]. destruct (IH k s' rest Hk) as [rest1 ->]. done.
  - cbn [exec]. destruct (exec r1 (w +:+ s') k); [done|]. by apply (IH k s' rest).
  - rewrite append_nil_l.
    destruct g; cbn [exec]; eauto using star_greedy_continue, star_lazy_continue.
  - rewrite append_cons. specialize (IH k s' rest Hk).
    destruct g; cbn [exec] in *; cbn [star_greedy star_lazy]; rewrite Hp.
    + destruct IH as [rest' ->]. done.
    + by destruct (k (String c (w +:+ s'))).
Qed.

Lemma replace_from_length r skip s :
  String.length (replace_from r skip s) ≤ String.length s - skip.
Proof.
  revert skip. induction s as [|c s IH]; intros skip; [done|].
  destruct skip as [|n]; cbn [replace_from String.length].
  - destruct (exec r (String c s) Some) as [rest|];
      [destruct (S (String.length s) - String.length rest) as [|n]|];
      cbn [String.length]; try (specialize (IH 0); lia).
    specialize (IH n). lia.
  - specialize (IH n). lia.
Qed.

(** A match of the escape-removal pattern at the head of the text is dropped. *)
Lemma replace_from_head_match c s rest :
  exec ansi_pattern (String c s) Some = Some rest →
  String.length (replace_from ansi_pattern 0 (String c s)) ≤ String.length s.
Proof.
  intros Hexec. cbn [replace_from]. rewrite Hexec.
  destruct (exec_sound _ _ _ _ Hexec) as (w & s' & Hsplit & Hw & [= ->]).
  destruct (ansi_pattern_starts_with_ESC w Hw) as [w' ->].
  rewrite Hsplit, append_cons. cbn [String.length]. rewrite append_length.
  replace (S (String.length w' + String.length rest) - String.length rest)
    with (S (String.length w')) by lia.
  rewrite append_cons in Hsplit. injection Hsplit as _ ->.
  pose proof (replace_from_length ansi_pattern (String.length w') (w' +:+ rest)).
  lia.
Qed.

Theorem stripAnsi_removes_a_match (pre w suf : string) :
  matches ansi_pattern w →
  String.length (stripAnsi (pre +:+ w +:+ suf)) < String.length (pre +:+ w +:+ suf).
Proof.
  intros Hw. unfold stripAnsi, replace_all.
  induction pre as [|c pre IH].
  - rewrite append_nil_l.
    destruct (ansi_pattern_starts_with_ESC w Hw) as [w' Heq].
    destruct (exec_complete _ _ Hw Some suf suf eq_refl) as [rest Hexec].
    rewrite Heq, append_cons in *. cbn [String.length].
    apply Nat.lt_succ_r. by apply (replace_from_head_match _ _ rest).
  - rewrite append_cons. cbn [String.length].
    destruct (exec ansi_pattern (String c (pre +:+ w +:+ suf)) Some) as [rest|] eqn:Hexec.
    + apply Nat.lt_succ_r. by apply (replace_from_head_match _ _ rest).
    + cbn [replace_from]. rewrite Hexec. cbn [String.length]. lia.
Qed.

Lemma stripAnsi_removes_a_match_witness :
  String.length (stripAnsi ("ok " +:+ sgr_reset +:+ "!"))
  < String.length ("ok " +:+ sgr_reset +:+ "!").
Proof.
  apply (stripAnsi_removes_a_match "ok " sgr_reset "!").
  unfold ansi_pattern, sgr_reset.
  apply (matches_seq (Char ESC) _ (String ESC "") "[0m"); [constructor|].
  apply matches_alt_l.
  apply (matches_seq (Char "[") _ "[" "0m"); [constructor|].
  apply (matches_seq (Star true digit_or_semicolon) (Char "m") "0" "m").
  - apply matches_star_cons; [reflexivity|constructor].
  - constructor.
Defined.

(** ** The console switch *)

Lemma console_logs_dispatch_one resultObj listeners :
  console_logs (listeners ≫= dispatch_one resultObj) = [].
Proof.
  induction listeners as [|l rest IH]; [done|].
  cbn. unfold console_logs in *. rewrite omap_app, IH.
  by destruct (on_event l resultObj).
Qed.

Lemma fetches_dispatch_one resultObj listeners :
  fetches (listeners ≫= dispatch_one resultObj) = [].
Proof.
  induction listeners as [|l rest IH]; [done|].
  cbn. unfold fetches in *. rewrite omap_app, IH.
  by destruct (on_event l resultObj).
Qed.



(** ** Stripping styled text *)

Lemma star_greedy_params k p s rest :
  all_chars digit_or_semicolon p = true →
  k (String "m" s) = Some rest →
  star_greedy digit_or_semicolon k (p +:+ String "m" s) = Some rest.
Proof.
  intros Hp Hk. induction p as [|c p IH].
  - rewrite append_nil_l. cbn. exact Hk.
  - rewrite append_cons. cbn in Hp. apply andb_prop in Hp as [Hc Hp].
    cbn [star_greedy]. by rewrite Hc, IH.
Qed.

(** The matcher takes a CSI sequence at the head of the text, and no more. *)
Lemma exec_csi p s :
  all_chars digit_or_semicolon p = true →
  exec ansi_pattern (csi p +:+ s) Some = Some s.
Proof.
  intros Hp. unfold csi. rewrite !append_cons, append_assoc.
  change ("m" +:+ s) with (String "m" s).
  unfold ansi_pattern. cbn [exec]. rewrite Ascii.eqb_refl. cbn [exec].
  change (Ascii.eqb "[" "[") with true. cbn match.
  rewrite (star_greedy_params _ p s s Hp); [done|].
  cbn. done.
Qed.

Lemma replace_from_skip r w s :
  replace_from r (String.length w) (w +:+ s) = replace_from r 0 s.
Proof.
  induction w as [|c w IH]; [by rewrite append_nil_l|].
  rewrite append_cons. cbn. exact IH.
Qed.

Lemma replace_from_match r c w s :
  exec r (String c (w +:+ s)) Some = Some s →
  replace_from r 0 (String c (w +:+ s)) = replace_from r 0 s.
Proof.
  intros Hexec. cbn [replace_from]. rewrite Hexec. cbn [String.length].
  rewrite append_length.
  replace (S (String.length w + String.length s) - String.length s)
    with (S (String.length w)) by lia.
  apply replace_from_skip.
Qed.

Lemma stripAnsi_csi code s : is_csi code → stripAnsi (code +:+ s) = stripAnsi s.
Proof.
  intros (p & Hp & ->). unfold stripAnsi, replace_all.
  pose proof (exec_csi p s Hp) as Hexec. unfold csi in *.
  rewrite append_cons in *. by apply replace_from_match.
Qed.

Lemma exec_not_ESC c s : c ≠ ESC → exec ansi_pattern (String c s) Some = None.
Proof.
  intros Hc. unfold ansi_pattern. cbn [exec].
  destruct (Ascii.eqb_spec ESC c) as [Heq|_]; [by destruct Hc|]. done.
Qed.

Lemma stripAnsi_char c s : c ≠ ESC → stripAnsi (String c s) = String c (stripAnsi s).
Proof.
  intros Hc. unfold stripAnsi, replace_all. cbn [replace_from].
  by rewrite exec_not_ESC.
Qed.

Lemma styled_app s1 v1 s2 v2 :
  styled s1 v1 → styled s2 v2 → styled (s1 +:+ s2) (v1 +:+ v2).
Proof.
  induction 1 as [|c s v Hc _ IH|code s v Hcode _ IH]; intros H2.
  - by rewrite !append_nil_l.
  - rewrite !append_cons. constructor; auto.
  - rewrite append_assoc. constructor; auto.
Qed.

Lemma styled_plain s : contains ESC s = false → styled s s.
Proof.
  induction s as [|c s IH]; cbn [contains]; [constructor|].
  intros [Hc Hs]%orb_false_elim. constructor; [|auto].
  intros ->. by rewrite Ascii.eqb_refl in Hc.
Qed.

Lemma styled_code code : is_csi code → styled code "".
Proof.
  intros Hcode. rewrite <- (append_nil_r code). constructor; [done|constructor].
Qed.

(** Of a text made of plain code units and CSI sequences, stripping leaves
    the plain code units, in their order. *)
Theorem stripAnsi_styled_text (s v : string) : styled s v → stripAnsi s = v.
Proof.
  induction 1 as [|c s v Hc _ IH|code s v Hcode _ IH].
  - done.
  - by rewrite stripAnsi_char, IH.
  - by rewrite stripAnsi_csi, IH.
Qed.

Lemma stripAnsi_styled_text_witness :
  stripAnsi (csi "1" +:+ csi "38;5;208" +:+ "warm" +:+ csi "0" +:+ csi "0") = "warm".
Proof.
  apply (stripAnsi_styled_text _ "warm").
  apply styled_csi; [by exists "1"|].
  apply styled_csi; [by exists "38;5;208"|].
  apply (styled_app "warm" "warm" _ ""); [by apply styled_plain|].
  apply styled_csi; [by exists "0"|].
  apply styled_code. by exists "0".
Defined.

(** ** Styles and stripping *)

Lemma styled_makeStyle reset code x v :
  is_csi reset → is_csi code → styled x v →
  styled (apply_fn (makeStyle reset code) (Some x)) v.
Proof.
  intros Hreset Hcode Hx. cbn. constructor; [done|].
  rewrite <- (append_nil_r v). apply styled_app; [done|by apply styled_code].
Qed.

Lemma styled_layers reset codes x v :
  is_csi reset → Forall is_csi codes → styled x v →
  styled (layers reset codes x) v.
Proof.
  intros Hreset Hcodes Hx. induction Hcodes as [|code codes Hcode _ IH]; [done|].
  cbn [layers foldr]. by apply styled_makeStyle.
Qed.

(** However many styles are stacked on a plain text, stripping gives the
    text back; a style composed with [style] and called without a text, or
    string-converted, strips to nothing. *)
Theorem stripAnsi_layers (reset : string) (codes : list string) (x : string) :
  is_csi reset → Forall is_csi codes → contains ESC x = false →
  stripAnsi (layers reset codes x) = x
  ∧ stripAnsi (apply_fn (style (layers reset codes)) (Some x)) = x
  ∧ stripAnsi (apply_fn (style (layers reset codes)) None) = ""
  ∧ stripAnsi (toString (style (layers reset codes))) = "".
Proof.
  intros Hreset Hcodes Hx. repeat split; cbn [style apply_fn toString default];
    apply stripAnsi_styled_text, styled_layers; auto using styled_plain, styled_nil.
Qed.

Lemma stripAnsi_layers_witness :
  stripAnsi (layers sgr_reset [csi "94"; csi "1"; csi "3"] "note") = "note".
Proof.
  refine (proj1 (stripAnsi_layers sgr_reset [csi "94"; csi "1"; csi "3"] "note" _ _ _)).
  - by exists "0".
  - repeat constructor; [by exists "94"|by exists "1"|by exists "3"].
  - reflexivity.
Defined.

(** ** The stripped text of a call *)

Lemma styled_concat sep xs vs :
  contains ESC sep = false →
  Forall2 styled xs vs →
  styled (String.concat sep xs) (String.concat sep vs).
Proof.
  intros Hsep. induction 1 as [|x v xs vs Hx Hxs IH]; [constructor|].
  destruct Hxs as [|x' v' xs vs Hx' Hxs].
  - done.
  - change (String.concat sep (x :: x' :: xs))
      with (x +:+ sep +:+ String.concat sep (x' :: xs)).
    change (String.concat sep (v :: v' :: vs))
      with (v +:+ sep +:+ String.concat sep (v' :: vs)).
    apply styled_app; [done|]. apply styled_app; [by apply styled_plain|done].
Qed.









(** ** The level methods *)

Section LevelsStripped.
Variable reset : string.
Variables trimStart trimEnd : string → string.
Variable G : Filter.
Variables STYLE_bold FG_Red FG_Yellow FG_BrightBlue FG_Cyan FG_Green FG_White : string.




End LevelsStripped.



(** ** The tag registry *)

Lemma add_blacklisted_list ts G :
  blacklistTags (foldl (λ G t, add_blacklisted t G) G ts)
  = list_to_set ts ∪ blacklistTags G
  ∧ whitelistTags (foldl (λ G t, add_blacklisted t G) G ts) = whitelistTags G.
Proof.
  revert G. induction ts as [|t ts IH]; intros G; cbn [foldl list_to_set].
  - split; [by rewrite (left_id_L ∅ (∪))|done].
  - destruct (IH (add_blacklisted t G)) as [-> ->]. cbn. split; [|done].
    apply set_eq. intros x. rewrite !elem_of_union. tauto.
Qed.

Lemma add_whitelisted_list ts G :
  whitelistTags (foldl (λ G t, add_whitelisted t G) G ts)
  = list_to_set ts ∪ whitelistTags G
  ∧ blacklistTags (foldl (λ G t, add_whitelisted t G) G ts) = blacklistTags G.
Proof.
  revert G. induction ts as [|t ts IH]; intros G; cbn [foldl list_to_set].
  - split; [by rewrite (left_id_L ∅ (∪))|done].
  - destruct (IH (add_whitelisted t G)) as [-> ->]. cbn. split; [|done].
    apply set_eq. intros x. rewrite !elem_of_union. tauto.
Qed.

(** The registry only grows: after [blacklistTag] a tag is blacklisted exactly
    when it was before or is one of those given, and the whitelist is as it
    was; the same holds for [whitelistTag] with the lists swapped; the plural
    forms do what the singular ones do on a list. *)
Theorem tag_registry_additive (tag : string + list string) (G : Filter) (t : string) :
  (ComfyLoggerSettings.isTagBlacklisted (ComfyLoggerSettings.blacklistTag tag G) t = true
   ↔ ComfyLoggerSettings.isTagBlacklisted G t = true ∨ t ∈ tags_of tag)
  ∧ ComfyLoggerSettings.isTagWhitelisted (ComfyLoggerSettings.blacklistTag tag G) t
    = ComfyLoggerSettings.isTagWhitelisted G t
  ∧ (ComfyLoggerSettings.isTagWhitelisted (ComfyLoggerSettings.whitelistTag tag G) t = true
     ↔ ComfyLoggerSettings.isTagWhitelisted G t = true ∨ t ∈ tags_of tag)
  ∧ ComfyLoggerSettings.isTagBlacklisted (ComfyLoggerSettings.whitelistTag tag G) t
    = ComfyLoggerSettings.isTagBlacklisted G t
  ∧ (∀ ts, ComfyLoggerSettings.blacklistTags ts G
           = ComfyLoggerSettings.blacklistTag (inr ts) G)
  ∧ (∀ ts, ComfyLoggerSettings.whitelistTags ts G
           = ComfyLoggerSettings.whitelistTag (inr ts) G).
Proof.
  unfold ComfyLoggerSettings.isTagBlacklisted, ComfyLoggerSettings.isTagWhitelisted.
  assert (ComfyLoggerSettings.blacklistTag tag G
          = foldl (λ G t, add_blacklisted t G) G (tags_of tag)) as -> by (by destruct tag).
  assert (ComfyLoggerSettings.whitelistTag tag G
          = foldl (λ G t, add_whitelisted t G) G (tags_of tag)) as -> by (by destruct tag).
  destruct (add_blacklisted_list (tags_of tag) G) as [-> ->].
  destruct (add_whitelisted_list (tags_of tag) G) as [-> ->].
  rewrite !bool_decide_eq_true, !elem_of_union, !elem_of_list_to_set.
  repeat split; try done; tauto.
Qed.

(** A logger none of whose tags is blacklisted is never suppressed; a logger
    without tags in particular, whatever the registry holds. *)
Theorem log_without_blacklisted_tag (reset : string)
  (trimStart trimEnd : string → string) (G : Filter) (L : ComfyLogger)
  (strings : value) (values : list value) :
  (∀ tag, tag ∈ default [] (tags (options L)) →
          ComfyLoggerSettings.isTagBlacklisted G tag = false) →
  shouldLog G L = true
  ∧ ∃ (t : list effect) (resultObj : LogEvent),
      log reset trimStart trimEnd G L strings values = (t, Normal (Some resultObj)).
Proof.
  intros Hclean.
  assert (shouldLog G L = true) as Hlog.
  { unfold shouldLog. rewrite shouldLog_tags_forallb.
    apply forallb_forall. intros tag Htag%list_elem_of_In.
    by rewrite (Hclean tag Htag). }
  split; [done|]. eexists _, _. by apply log_run.
Qed.

Lemma log_without_blacklisted_tag_witness :
  shouldLog (ComfyLoggerSettings.blacklistTag (inr ["db"; "net"]) internalGlobalConfig)
    (configure (only_tags ["ui"]) fresh) = true.
Proof.
  refine (proj1 (log_without_blacklisted_tag sgr_reset id id
                   (ComfyLoggerSettings.blacklistTag (inr ["db"; "net"])
                      internalGlobalConfig)
                   (configure (only_tags ["ui"]) fresh) (VString "x") [] _)).
  intros tag Htag. cbn in Htag. apply list_elem_of_singleton in Htag as ->.
  reflexivity.
Defined.

(** ** Configuration, composed *)

(** Two updates in a row are one update with the merged object; an update
    with the empty object changes nothing; an update is idempotent. *)
Theorem configure_compose (p1 p2 : PartialConfig) (L : ComfyLogger) :
  configure p2 (configure p1 L) = configure (merge_partial p1 p2) L
  ∧ configure empty_options L = L
  ∧ configure p1 (configure p1 L) = configure p1 L.
Proof.
  repeat split.
  - unfold configure, set_options. cbn. f_equal. f_equal.
    all: by destruct p1 as [? ? ? ? ? ? ? ?], p2 as [[?|] [?|] [?|] [?|] [?|] [?|] [?|] [?|]].
  - by destruct L as [[] ? ?].
  - unfold configure, set_options. cbn. f_equal. f_equal.
    all: by destruct p1 as [[?|] [?|] [?|] [?|] [?|] [?|] [?|] [?|]].
Qed.

(** ** Construction and listeners *)

Lemma foldl_addEventListener ls L :
  foldl (λ L listener, addEventListener EvLog listener L) L ls
  = set_eventListeners {| ev_log := ev_log (eventListeners L) ++ ls |} L.
Proof.
  revert L. induction ls as [|l ls IH]; intros L; cbn [foldl].
  - rewrite app_nil_r. by destruct L as [? [] ?].
  - rewrite IH. unfold addEventListener, set_eventListeners. cbn.
    by rewrite <- (assoc_L (++)).
Qed.



(** Registering a listener that was not registered and removing it again
    gives the logger back, with the result [true] and no warning. *)
Theorem add_then_remove_listener (fn : LoggerEventListener) (L : ComfyLogger) :
  ¬ registered fn L →
  removeEventListener fn (addEventListener EvLog fn L) = (L, ([], Normal true)).
Proof.
  intros Hnot. rewrite removeEventListener_run.
  assert (∀ l, l ∈ ev_log (eventListeners L) → ref l ≠ ref fn) as Hall.
  { intros l Hl Heq. apply Hnot. by exists EvLog, l. }
  cbn. rewrite !filter_app.
  rewrite (filter_none (λ l, ref l = ref fn) (ev_log _))
    by (intros l Hl; by apply Hall).
  rewrite (filter_all (λ l, ref l ≠ ref fn) (ev_log _)) by done.
  rewrite (filter_cons_True (λ l, ref l = ref fn)) by done.
  rewrite (filter_cons_False (λ l, ref l ≠ ref fn)) by tauto.
  rewrite !filter_nil, app_nil_r. cbn.
  by destruct L as [? [] ?].
Qed.

Lemma add_then_remove_listener_witness :
  removeEventListener (quiet 7)
    (addEventListener EvLog (quiet 7) (addEventListener EvLog (quiet 1) fresh))
  = (addEventListener EvLog (quiet 1) fresh, ([], Normal true)).
Proof.
  apply (add_then_remove_listener (quiet 7) (addEventListener EvLog (quiet 1) fresh)).
  intros ([] & l & Hl & Heq). cbn in Hl.
  apply list_elem_of_singleton in Hl as ->. discriminate Heq.
Defined.

(** Removing a listener a second time finds nothing: the logger stays as the
    first removal left it, a warning is written and the result is [false]. *)
Theorem remove_listener_twice (fn : LoggerEventListener) (L : ComfyLogger) :
  removeEventListener fn (removeEventListener fn L).1
  = ((removeEventListener fn L).1,
     ([ConsoleWarn "Listener not found for removal:" (ref fn)], Normal false)).
Proof.
  rewrite (removeEventListener_run fn L). cbn [fst].
  rewrite removeEventListener_run. cbn.
  rewrite (filter_none (λ l, ref l = ref fn))
    by (by intros l [Hne _]%list_elem_of_filter).
  rewrite (filter_all (λ l, ref l ≠ ref fn) (filter _ _))
    by (by intros l [Hne _]%list_elem_of_filter).
  done.
Qed.



(** ** Transformers *)

(** Transformers run in the order of their registration, the "before" ones
    on the rendering, the "after" ones on the rendering with the reset code;
    registering an array is registering its elements one after the other. *)
Theorem transformers_in_order (reset : string) (trimStart trimEnd : string → string)
  (L : ComfyLogger) (f g h k : string → string) (strings : value)
  (values : list value) :
  unprocessed L →
  finalMessage reset trimStart trimEnd
    (transformAfter (inr k) (transformAfter (inr h)
       (transformBefore (inr g) (transformBefore (inr f) L))))
    strings values
  = k (h (g (f (render L strings values)) +:+ reset))
  ∧ (∀ fs gs L',
       transformBefore (inl (fs ++ gs)) L'
       = transformBefore (inl gs) (transformBefore (inl fs) L'))
  ∧ (∀ fs gs L',
       transformAfter (inl (fs ++ gs)) L'
       = transformAfter (inl gs) (transformAfter (inl fs) L'))
  ∧ transformBefore (inl [f]) L = transformBefore (inr f) L
  ∧ transformAfter (inl [f]) L = transformAfter (inr f) L.
Proof.
  intros (Hb & Ha & Htb & Hta). repeat split.
  - unfold finalMessage. cbn. by rewrite Hb, Ha, Htb, Hta.
  - intros fs gs L'. unfold transformBefore, set_transformers. cbn.
    by rewrite (assoc_L (++)).
  - intros fs gs L'. unfold transformAfter, set_transformers. cbn.
    by rewrite (assoc_L (++)).
Qed.

Lemma transformers_in_order_witness :
  finalMessage sgr_reset id id
    (transformAfter (inr (λ s, s +:+ "|")) (transformAfter (inr (λ s, "<" +:+ s))
       (transformBefore (inr (λ s, s +:+ "2"))
          (transformBefore (inr (λ s, s +:+ "1")) fresh))))
    (VString "x") []
  = ("<" +:+ ("x" +:+ "1" +:+ "2") +:+ sgr_reset) +:+ "|".
Proof.
  refine (proj1 (transformers_in_order sgr_reset id id fresh
                   (λ s, s +:+ "1") (λ s, s +:+ "2") (λ s, "<" +:+ s)
                   (λ s, s +:+ "|") (VString "x") [] _)).
  by repeat split.
Defined.

(** ** [rainbow16] *)

Lemma concat_split_chars text : String.concat "" (split_chars text) = text.
Proof.
  unfold split_chars. induction text as [|c text IH]; [done|].
  cbn [list_ascii_of_string fmap list_fmap].
  destruct text as [|c' text]; [done|].
  cbn [list_ascii_of_string fmap list_fmap] in *.
  change (String.concat "" (String c "" :: String c' "" :: ?l))
    with (String c "" +:+ "" +:+ String.concat "" (String c' "" :: l)).
  by rewrite IH.
Qed.

Lemma styled_imap_chars (g : nat → string → string) text :
  contains ESC text = false →
  (∀ i c, c ≠ ESC → styled (g i (String c "")) (String c "")) →
  Forall2 styled (imap g (split_chars text)) (split_chars text).
Proof.
  unfold split_chars. revert g.
  induction text as [|c text IH]; intros g Hplain Hg; [constructor|].
  cbn [contains] in Hplain. apply orb_false_elim in Hplain as [Hc Hplain].
  cbn [list_ascii_of_string fmap list_fmap imap]. constructor.
  - apply Hg. intros ->. by rewrite Ascii.eqb_refl in Hc.
  - apply IH; [done|]. intros i c' Hc'. by apply Hg.
Qed.

(** [rainbow16] only adds colour: of a text without [ESC], with codes that
    are CSI sequences, stripping gives the text back; an empty text gives the
    reset code alone. *)
Theorem rainbow16_strips (reset : string)
  (c1 c2 c3 c4 c5 c6 c7 c8 c9 c10 c11 c12 : string) (text : string) :
  is_csi reset →
  Forall is_csi [c1; c2; c3; c4; c5; c6; c7; c8; c9; c10; c11; c12] →
  contains ESC text = false →
  stripAnsi (rainbow16 reset c1 c2 c3 c4 c5 c6 c7 c8 c9 c10 c11 c12 text) = text
  ∧ rainbow16 reset c1 c2 c3 c4 c5 c6 c7 c8 c9 c10 c11 c12 "" = reset.
Proof.
  intros Hreset Hcodes Hplain. split; [|done].
  apply stripAnsi_styled_text. unfold rainbow16.
  rewrite <- (append_nil_r text) at 2.
  apply styled_app; [|by apply styled_code].
  rewrite join_concat. rewrite <- (concat_split_chars text) at 2.
  apply styled_concat; [done|].
  apply styled_imap_chars; [done|]. intros i c Hc.
  destruct (lookup_lt_is_Some_2
              (rainbow16_colors c1 c2 c3 c4 c5 c6 c7 c8 c9 c10 c11 c12)
              (i mod 12)) as [code Hcode].
  { cbn [length rainbow16_colors]. apply Nat.mod_upper_bound. lia. }
  cbn [length rainbow16_colors] in *. rewrite Hcode. cbn [default].
  apply styled_csi; [|by repeat constructor].
  eapply Forall_lookup_1; [exact Hcodes|exact Hcode].
Qed.

Lemma rainbow16_strips_witness :
  stripAnsi (rainbow16 sgr_reset (csi "31") (csi "91") (csi "33") (csi "93") (csi "32")
               (csi "92") (csi "36") (csi "96") (csi "34") (csi "94") (csi "35")
               (csi "95") "somewhere over the rainbow")
  = "somewhere over the rainbow".
Proof.
  refine (proj1 (rainbow16_strips sgr_reset (csi "31") (csi "91") (csi "33") (csi "93")
                   (csi "32") (csi "92") (csi "36") (csi "96") (csi "34") (csi "94")
                   (csi "35") (csi "95") "somewhere over the rainbow" _ _ _)).
  - by exists "0".
  - repeat constructor; eexists; (split; [|reflexivity]); reflexivity.
  - reflexivity.
Defined.

(** ** [nanoid] *)

Lemma contains_append c s t : contains c (s +:+ t) = contains c s || contains c t.
Proof.
  induction s as [|c' s IH]; [done|].
  rewrite append_cons. cbn [contains]. by rewrite IH, orb_assoc.
Qed.

(** Every index below 64 falls on a code unit of the alphabet. *)
Lemma alphabet_get n :
  n < 64 → ∃ c, String.get n Random.a = Some c ∧ contains c Random.a = true.
Proof.
  intros Hn.
  do 64 (destruct n as [|n]; [eexists; split; reflexivity|]). lia.
Qed.

Lemma char_at_masked b :
  ∃ c, Random.char_at (Z.land 63 b) = String c "" ∧ contains c Random.a = true.
Proof.
  assert (0 ≤ Z.land 63 b < 64)%Z as Hrange.
  { rewrite Z.land_comm. change 63%Z with (Z.ones 6).
    rewrite Z.land_ones by lia. apply Z.mod_pos_bound. lia. }
  destruct (alphabet_get (Z.to_nat (Z.land 63 b))) as (c & Hget & Hc); [lia|].
  exists c. split; [|done]. unfold Random.char_at.
  destruct (Z.ltb_spec (Z.land 63 b) 0); [lia|]. by rewrite Hget.
Qed.

Lemma nanoid_loop_spec r n count t :
  String.length (Random.nanoid_loop r n count t) = String.length t + count
  ∧ ∀ c, contains c (Random.nanoid_loop r n count t) = true →
         contains c t = true ∨ contains c Random.a = true.
Proof.
  revert n t. induction count as [|count IH]; intros n t; cbn [Random.nanoid_loop].
  - split; [lia|auto].
  - destruct (char_at_masked (default 0%Z (r !! n))) as (c' & -> & Hc').
    destruct (IH (S n) (t +:+ String c' "")) as [Hlen Hin].
    split.
    + rewrite Hlen, append_length. cbn. lia.
    + intros c Hc. destruct (Hin c Hc) as [Ht|]; [|by right].
      rewrite contains_append in Ht. apply orb_prop in Ht as [|Ht]; [by left|].
      right. cbn [contains] in Ht. rewrite orb_false_r in Ht.
      apply Ascii.eqb_eq in Ht as ->. done.
Qed.

(** Whatever the random bytes, [nanoid(length)] has [length] code units, each
    one of the 64 of the alphabet: the mask keeps every index in range. *)
Theorem nanoid_alphabet (length : nat) (r : list Z) :
  String.length (Random.nanoid length r) = length
  ∧ (∀ c, contains c (Random.nanoid length r) = true → contains c Random.a = true)
  ∧ String.length Random.a = 64.
Proof.
  destruct (nanoid_loop_spec r 0 length "") as [Hlen Hin].
  split; [done|]. split; [|done].
  intros c Hc. by destruct (Hin c Hc).
Qed.

(** ** The command-line handlers *)

Lemma split_go_nonempty sep s cur : split_go sep s cur ≠ [].
Proof.
  revert cur. induction s as [|c s IH]; intros cur; cbn; [done|].
  destruct (Ascii.eqb c sep); [done|apply IH].
Qed.

Lemma concat_split_go sep s cur :
  String.concat (String sep "") (split_go sep s cur) = cur +:+ s.
Proof.
  revert cur. induction s as [|c s IH]; intros cur; cbn [split_go].
  - cbn. by rewrite append_nil_r.
  - destruct (Ascii.eqb_spec c sep) as [->|Hne].
    + specialize (IH ""). destruct (split_go sep s "") as [|y ys] eqn:Hsplit.
      { by destruct (split_go_nonempty sep s ""). }
      change (String.concat (String sep "") (cur :: y :: ys))
        with (cur +:+ String sep "" +:+ String.concat (String sep "") (y :: ys)).
      by rewrite IH.
    + rewrite IH, append_assoc. done.
Qed.

Lemma foldl_blacklistTag ts G :
  foldl (λ G tag, ComfyLoggerSettings.blacklistTag (inl tag) G) G ts
  = foldl (λ G t, add_blacklisted t G) G ts.
Proof. done. Qed.

Lemma foldl_whitelistTag ts G :
  foldl (λ G tag, ComfyLoggerSettings.whitelistTag (inl tag) G) G ts
  = foldl (λ G t, add_whitelisted t G) G ts.
Proof. done. Qed.

(** The handler of [--blacklist-tags] blacklists the trimmed pieces of its
    value between commas, and nothing else changes; [--whitelist-tags] does
    the same with the whitelist.  The pieces joined by commas are the value
    again, and an empty value has the one piece [""]. *)
Theorem cli_tags_spec (trim : string → string) (value : string) (G : Filter)
  (t : string) :
  (ComfyLoggerSettings.isTagBlacklisted (cli_blacklist_tags trim value G) t = true
   ↔ ComfyLoggerSettings.isTagBlacklisted G t = true
     ∨ t ∈ trim <$> split "," value)
  ∧ ComfyLoggerSettings.isTagWhitelisted (cli_blacklist_tags trim value G) t
    = ComfyLoggerSettings.isTagWhitelisted G t
  ∧ (ComfyLoggerSettings.isTagWhitelisted (cli_whitelist_tags trim value G) t = true
     ↔ ComfyLoggerSettings.isTagWhitelisted G t = true
       ∨ t ∈ trim <$> split "," value)
  ∧ ComfyLoggerSettings.isTagBlacklisted (cli_whitelist_tags trim value G) t
    = ComfyLoggerSettings.isTagBlacklisted G t
  ∧ String.concat "," (split "," value) = value
  ∧ split "," "" = [""].
Proof.
  unfold cli_blacklist_tags, cli_whitelist_tags,
    ComfyLoggerSettings.isTagBlacklisted, ComfyLoggerSettings.isTagWhitelisted.
  rewrite foldl_blacklistTag, foldl_whitelistTag.
  destruct (add_blacklisted_list (trim <$> split "," value) G) as [-> ->].
  destruct (add_whitelisted_list (trim <$> split "," value) G) as [-> ->].
  rewrite !bool_decide_eq_true, !elem_of_union, !elem_of_list_to_set.
  repeat split; try done; try tauto.
  unfold split. by rewrite concat_split_go.
Qed.

(** ** [class] *)

(** [class] refuses a name the logger already has a property for, its own
    methods included, and otherwise attaches the style under the name and
    leaves the rest alone; a name can therefore be given once only. *)
Theorem class_spec (Object_prototype : gset string) (name : string)
  (styleFn other : StyleFn) (I : Instance) :
  (has_property Object_prototype name I →
   ∃ error, class_ Object_prototype name styleFn I = ([], Throw error))
  ∧ (¬ has_property Object_prototype name I →
     ∃ I', class_ Object_prototype name styleFn I = ([], Normal I')
       ∧ attached I' !! name = Some styleFn
       ∧ (∀ name', name' ≠ name → attached I' !! name' = attached I !! name')
       ∧ logger I' = logger I
       ∧ ∃ error, class_ Object_prototype name other I' = ([], Throw error))
  ∧ (name ∈ prototype_members →
     ∃ error, class_ Object_prototype name styleFn I = ([], Throw error)).
Proof.
  assert (∀ J, has_property Object_prototype name J →
               ∃ error, class_ Object_prototype name styleFn J = ([], Throw error))
    as Hthrow.
  { intros J HJ. unfold class_. rewrite decide_True by done. by eexists. }
  repeat split.
  - apply Hthrow.
  - intros Hfree. unfold class_ at 1. rewrite decide_False by done.
    eexists. split; [reflexivity|]. cbn [attached logger].
    rewrite lookup_insert_eq. repeat split; [|].
    + intros name' Hne. by rewrite lookup_insert_ne.
    + unfold class_. rewrite decide_True; [by eexists|].
      right. left. cbn [attached]. rewrite dom_insert_L.
      apply elem_of_union_l, elem_of_singleton. done.
  - intros Hmember. apply Hthrow. right. right. by left.
Qed.

Lemma class_spec_witness :
  (∃ error,
     class_ ∅ "log" (makeStyle sgr_reset (csi "35"))
       {| logger := fresh; attached := ∅ |}
     = ([], Throw error))
  ∧ ∃ I',
      class_ ∅ "accent" (makeStyle sgr_reset (csi "35"))
        {| logger := fresh; attached := ∅ |}
      = ([], Normal I')
      ∧ toString <$> attached I' !! "accent" = Some (csi "35").
Proof.
  pose proof (class_spec ∅ "log" (makeStyle sgr_reset (csi "35"))
                (makeStyle sgr_reset (csi "35")) {| logger := fresh; attached := ∅ |})
    as (_ & _ & Hmember).
  pose proof (class_spec ∅ "accent" (makeStyle sgr_reset (csi "35"))
                (makeStyle sgr_reset (csi "35")) {| logger := fresh; attached := ∅ |})
    as (_ & Hfree & _).
  split.
  - apply Hmember. unfold prototype_members. rewrite !elem_of_cons. tauto.
  - destruct Hfree as (I' & Hrun & Hlookup & _).
    + unfold has_property, instance_fields, prototype_members. cbn [attached].
      rewrite dom_empty_L, !elem_of_cons, !elem_of_nil, elem_of_empty.
      intros H. repeat destruct H as [H|H]; try discriminate H; done.
    + exists I'. split; [exact Hrun|]. by rewrite Hlookup.
Defined.

(** ** [timestamp] *)

Lemma all_chars_append P s t :
  all_chars P (s +:+ t) = all_chars P s && all_chars P t.
Proof.
  induction s as [|c s IH]; [done|].
  rewrite append_cons. cbn [all_chars]. by rewrite IH, andb_assoc.
Qed.

Lemma all_chars_repeat P n c : P c = true → all_chars P (repeat_char n c) = true.
Proof. intros Hc. induction n as [|n IH]; [done|]. cbn. by rewrite Hc, IH. Qed.

Lemma string_of_uint_digits u :
  all_chars digit_or_minus (NilEmpty.string_of_uint u) = true.
Proof. induction u; cbn [NilEmpty.string_of_uint all_chars]; by rewrite ?IHu. Qed.

Lemma String_nat_digits n : all_chars digit_or_minus (String_nat n) = true.
Proof.
  unfold String_nat, NilZero.string_of_uint.
  destruct (Nat.to_uint n) eqn:Hn; [done|..]; rewrite <- Hn; apply string_of_uint_digits.
Qed.

Lemma String_Z_digits z : all_chars digit_or_minus (String_Z z) = true.
Proof.
  unfold String_Z, NilZero.string_of_int, NilZero.string_of_uint.
  destruct (Z.to_int z) as [u|u]; destruct u eqn:Hu; try done;
    rewrite <- Hu; cbn [all_chars]; rewrite ?andb_true_l; apply string_of_uint_digits.
Qed.

Lemma padStart_digits n s :
  all_chars digit_or_minus s = true →
  all_chars digit_or_minus (padStart n "0" s) = true.
Proof.
  intros Hs. unfold padStart. by rewrite all_chars_append, all_chars_repeat, Hs.
Qed.

Lemma token_value_digits now t : all_chars digit_or_minus (token_value now t) = true.
Proof.
  destruct t; cbn [token_value];
    auto using String_Z_digits, padStart_digits, String_nat_digits.
Qed.

(** A text of digits, or a literal text, has no code unit equal to a given
    token letter. *)
Lemma digits_free x s :
  digit_or_minus x = false →
  all_chars digit_or_minus s = true →
  all_chars (λ c, negb (Ascii.eqb c x)) s = true.
Proof.
  intros Hx. induction s as [|c s IH]; [done|]. cbn [all_chars].
  intros [Hc Hs]%andb_prop. rewrite IH by done.
  destruct (Ascii.eqb_spec c x) as [->|_]; [congruence|done].
Qed.

Lemma literal_free x s :
  is_token_letter x = true →
  all_chars (λ c, negb (is_token_letter c)) s = true →
  all_chars (λ c, negb (Ascii.eqb c x)) s = true.
Proof.
  intros Hx. induction s as [|c s IH]; [done|]. cbn [all_chars].
  intros [Hc Hs]%andb_prop. rewrite IH by done.
  destruct (Ascii.eqb_spec c x) as [->|_]; [|done].
  by rewrite Hx in Hc.
Qed.

(** One pass of [replaceAll]: an occurrence of the token is replaced, a text
    without the first letter of the token is passed over. *)
Lemma prefix_append token rest : String.prefix token (token +:+ rest) = true.
Proof.
  induction token as [|c token IH]; [by destruct rest|].
  rewrite append_cons. cbn. destruct (ascii_dec c c); [exact IH|done].
Qed.

Lemma replaceAll_from_skip token value w rest :
  replaceAll_from token value (String.length w) (w +:+ rest)
  = replaceAll_from token value 0 rest.
Proof.
  induction w as [|c w IH]; [by rewrite append_nil_l|].
  rewrite append_cons. cbn. exact IH.
Qed.

Lemma replaceAll_hit x token value rest :
  replaceAll_from (String x token) value 0 (String x token +:+ rest)
  = value +:+ replaceAll_from (String x token) value 0 rest.
Proof.
  rewrite append_cons. cbn [replaceAll_from].
  rewrite <- append_cons, prefix_append. cbn [String.length].
  replace (S (String.length token) - 1) with (String.length token) by lia.
  by rewrite replaceAll_from_skip.
Qed.

Lemma replaceAll_miss x token value p rest :
  all_chars (λ c, negb (Ascii.eqb c x)) p = true →
  replaceAll_from (String x token) value 0 (p +:+ rest)
  = p +:+ replaceAll_from (String x token) value 0 rest.
Proof.
  induction p as [|c p IH]; [done|].
  cbn [all_chars]. intros [Hc Hp]%andb_prop.
  rewrite !append_cons. cbn [replaceAll_from String.prefix].
  destruct (ascii_dec x c) as [->|_]; [by rewrite Ascii.eqb_refl in Hc|].
  by rewrite IH.
Qed.

(** The pass for the token of rank [k] takes a format from stage [k] to
    stage [k + 1]. *)
Lemma replaceAll_stage now t segs :
  Forall literal_ok segs →
  replaceAll (token_text t) (token_value now t) (stage (rank t) now segs)
  = stage (S (rank t)) now segs.
Proof.
  unfold replaceAll.
  induction 1 as [|seg segs Hseg _ IH]; [by destruct t|].
  cbn [stage foldr]. fold (stage (rank t) now segs). fold (stage (S (rank t)) now segs).
  rewrite <- IH. clear IH.
  destruct seg as [t'|s]; cbn [piece].
  - pose proof (token_value_digits now t') as Hdigits.
    destruct t, t'; cbn [rank Nat.ltb Nat.leb token_text];
      first [ apply replaceAll_hit
            | apply replaceAll_miss; reflexivity
            | apply replaceAll_miss; apply digits_free; [reflexivity|exact Hdigits] ].
  - cbn [literal_ok] in Hseg.
    destruct t; cbn [token_text]; apply replaceAll_miss, literal_free;
      (reflexivity || exact Hseg).
Qed.

Lemma stage_first now segs : stage 0 now segs = format_of segs.
Proof. done. Qed.

Lemma stage_last now segs : stage 7 now segs = formatted now segs.
Proof.
  unfold stage, formatted. induction segs as [|seg segs IH]; [done|].
  cbn [foldr]. rewrite IH. by destruct seg as [[]|].
Qed.

(** In a format made of tokens and of text without token letters,
    [timestamp] puts for every token its value, zero-padded to the width of
    the token, and keeps the text; the result is wrapped in ["[ "] and
    [" ]"].  Without an argument the format is the configured one, or
    ["YYYY-MM-DD HH:mm:ss"] when none is configured. *)
Theorem timestamp_substitutes (L : ComfyLogger) (now : Date) (segs : list segment) :
  Forall literal_ok segs →
  timestamp L (Some (format_of segs)) now = "[ " +:+ formatted now segs +:+ " ]"
  ∧ (timestampFormat (options L) = Some (format_of segs) →
     timestamp L None now = "[ " +:+ formatted now segs +:+ " ]")
  ∧ (timestampFormat (options L) = None →
     timestamp L None now
     = "[ " +:+ String_Z (getFullYear now) +:+ "-"
        +:+ padStart 2 "0" (String_nat (getMonth now + 1)) +:+ "-"
        +:+ padStart 2 "0" (String_nat (getDate now)) +:+ " "
        +:+ padStart 2 "0" (String_nat (getHours now)) +:+ ":"
        +:+ padStart 2 "0" (String_nat (getMinutes now)) +:+ ":"
        +:+ padStart 2 "0" (String_nat (getSeconds now)) +:+ " ]").
Proof.
  assert (∀ segs', Forall literal_ok segs' →
            timestamp L (Some (format_of segs')) now
            = "[ " +:+ formatted now segs' +:+ " ]") as Hgeneral.
  { intros segs' Hok. unfold timestamp, replacements. cbn [foldl].
    rewrite <- stage_first with (now := now).
    rewrite (replaceAll_stage now TYYYY), (replaceAll_stage now TMM),
      (replaceAll_stage now TDD), (replaceAll_stage now THH),
      (replaceAll_stage now Tmm), (replaceAll_stage now Tss),
      (replaceAll_stage now TSSS) by done.
    by rewrite stage_last. }
  intros Hok. split; [by apply Hgeneral|]. split.
  - intros Hconfigured. rewrite <- Hgeneral by done.
    unfold timestamp. by rewrite Hconfigured.
  - intros Hnone.
    assert (timestamp L None now
            = timestamp L
                (Some (format_of [Tok TYYYY; Lit "-"; Tok TMM; Lit "-"; Tok TDD;
                                  Lit " "; Tok THH; Lit ":"; Tok Tmm; Lit ":";
                                  Tok Tss])) now) as ->.
    { unfold timestamp. by rewrite Hnone. }
    rewrite Hgeneral by (repeat constructor).
    cbn [formatted foldr token_value]. by rewrite !append_assoc, append_nil_l.
Qed.

Lemma timestamp_substitutes_witness :
  timestamp fresh
    (Some (format_of [Tok TDD; Lit "/"; Tok TMM; Lit " at "; Tok THH; Lit "h"]))
    {| getFullYear := 2024; getMonth := 0; getDate := 5; getHours := 9;
       getMinutes := 3; getSeconds := 59; getMilliseconds := 7 |}
  = "[ 05/01 at 09h ]".
Proof.
  refine (proj1 (timestamp_substitutes fresh
                   {| getFullYear := 2024; getMonth := 0; getDate := 5; getHours := 9;
                      getMinutes := 3; getSeconds := 59; getMilliseconds := 7 |}
                   [Tok TDD; Lit "/"; Tok TMM; Lit " at "; Tok THH; Lit "h"] _)).
  repeat constructor.
Defined.

(** ** Hyperlinks *)

Lemma star_lazy_until_bel url s :
  all_chars (λ c, dot c && negb (bel c)) url = true →
  star_lazy dot (λ s', exec (Class bel) s' Some) (url +:+ String BEL s) = Some s.
Proof.
  induction url as [|c url IH]; intros Hurl.
  - rewrite append_nil_l. cbn. done.
  - rewrite append_cons. cbn [all_chars] in Hurl.
    apply andb_prop in Hurl as [[Hdot Hbel]%andb_prop Hurl].
    cbn [star_lazy exec]. apply negb_true_iff in Hbel. rewrite Hbel, Hdot. by apply IH.
Qed.

Lemma exec_osc8 url s :
  all_chars (λ c, dot c && negb (bel c)) url = true →
  exec ansi_pattern (String ESC "]8;;" +:+ url +:+ String BEL s) Some = Some s.
Proof.
  intros Hurl. rewrite !append_cons, append_nil_l.
  unfold ansi_pattern, osc8. cbn [exec]. rewrite Ascii.eqb_refl. cbn [exec].
  change (Ascii.eqb "[" "]") with false. change (Ascii.eqb "]" "]") with true.
  change (Ascii.eqb "8" "8") with true. change (Ascii.eqb ";" ";") with true.
  cbn match. by rewrite star_lazy_until_bel.
Qed.

Lemma stripAnsi_plain_prefix t s :
  contains ESC t = false → stripAnsi (t +:+ s) = t +:+ stripAnsi s.
Proof.
  induction t as [|c t IH]; [done|]. cbn [contains].
  intros [Hc Ht]%orb_false_elim. rewrite !append_cons, stripAnsi_char, IH; [done..|].
  intros ->. by rewrite Ascii.eqb_refl in Hc.
Qed.

(** An OSC-8 sequence whose address has neither [BEL] nor a line break goes
    as a whole; of a hyperlink around a plain text, the opening and the
    closing sequence go and the text stays. *)
Theorem stripAnsi_osc8 (url text s : string) :
  all_chars (λ c, dot c && negb (bel c)) url = true →
  contains ESC text = false →
  stripAnsi (String ESC "]8;;" +:+ url +:+ String BEL s) = stripAnsi s
  ∧ stripAnsi (String ESC "]8;;" +:+ url +:+ String BEL text
               +:+ String ESC "]8;;" +:+ String BEL s)
    = text +:+ stripAnsi s.
Proof.
  intros Hurl Htext.
  assert (∀ url' s', all_chars (λ c, dot c && negb (bel c)) url' = true →
            stripAnsi (String ESC "]8;;" +:+ url' +:+ String BEL s') = stripAnsi s')
    as Hsequence.
  { intros url' s' Hurl'. pose proof (exec_osc8 url' s' Hurl') as Hexec.
    unfold stripAnsi, replace_all.
    assert (String ESC "]8;;" +:+ url' +:+ String BEL s'
            = String ESC (("]8;;" +:+ url' +:+ String BEL "") +:+ s')) as Heq.
    { rewrite !append_cons, !append_assoc. done. }
    rewrite Heq in *. by apply replace_from_match. }
  split; [by apply Hsequence|].
  rewrite (append_cons BEL text), Hsequence by done.
  rewrite stripAnsi_plain_prefix by done. f_equal.
  exact (Hsequence "" s eq_refl).
Qed.

Lemma stripAnsi_osc8_witness :
  stripAnsi (String ESC "]8;;https://example.org/a?b=1" +:+ String BEL "docs"
             +:+ String ESC "]8;;" +:+ String BEL "!")
  = "docs!".
Proof.
  refine (proj2 (stripAnsi_osc8 "https://example.org/a?b=1" "docs" "!" _ _));
    reflexivity.
Defined.

(** ** Trimming *)

Lemma js_trimEnd_append x y :
  js_trimEnd y ≠ "" → js_trimEnd (x +:+ y) = x +:+ js_trimEnd y.
Proof.
  intros Hy. induction x as [|c x IH]; [done|].
  rewrite !append_cons. cbn [js_trimEnd]. rewrite IH.
  destruct (x +:+ js_trimEnd y) as [|c' t] eqn:Heq; [|done].
  destruct x; [by rewrite append_nil_l in Heq | by rewrite append_cons in Heq].
Qed.

Lemma js_trimEnd_csi code x : is_csi code → js_trimEnd (x +:+ code) = x +:+ code.
Proof.
  intros (p & _ & ->). unfold csi.
  assert (String ESC (String "[" (p +:+ "m")) = String ESC (String "[" p) +:+ "m") as ->
    by (by rewrite !append_cons).
  rewrite <- append_assoc. by rewrite js_trimEnd_append.
Qed.

Lemma js_trimStart_keeps_code r code :
  is_csi code → ∃ x, js_trimStart (r +:+ code) = x +:+ code.
Proof.
  intros (p & _ & ->). induction r as [|c r IH].
  - exists "". done.
  - rewrite append_cons. cbn [js_trimStart].
    destruct (is_white_space c); [exact IH|].
    exists (String c r). by rewrite append_cons.
Qed.

(** Without "after" transformers the message ends with the reset code, which
    is not white space: trimming the end changes nothing, whether [trimAfter]
    is set or not, so that white space at the end of the text stays. *)
Theorem trimAfter_without_effect (reset : string) (L : ComfyLogger) (strings : value)
  (values : list value) :
  is_csi reset →
  after (transformers L) = [] →
  finalMessage reset js_trimStart js_trimEnd L strings values
  = finalMessage reset js_trimStart (λ s, s) L strings values.
Proof.
  intros Hreset Hafter. unfold finalMessage. rewrite Hafter. cbn [foldl].
  destruct (truthy_string (trimAfter (options L))); [|done].
  destruct (truthy_string (trimBefore (options L))).
  - destruct (js_trimStart_keeps_code
                (foldl (λ result transform, transform result)
                   (render L strings values) (before (transformers L)))
                reset Hreset) as [x ->].
    by apply js_trimEnd_csi.
  - by apply js_trimEnd_csi.
Qed.

Lemma trimAfter_without_effect_witness :
  finalMessage sgr_reset js_trimStart js_trimEnd
    (configure
       {| p_autoSpaceBetween := None; p_timestampFormat := None;
          p_trimBefore := Some (Some "yes"); p_trimAfter := Some (Some "yes");
          p_externalLogging := None; p_console := None; p_tags := None;
          p_logErrorsToConsole := None |} fresh)
    (VString "  padded  ") []
  = "padded  " +:+ sgr_reset.
Proof.
  rewrite (trimAfter_without_effect sgr_reset _ (VString "  padded  ") []).
  - reflexivity.
  - by exists "0".
  - reflexivity.
Defined.

(** ** The request *)

Lemma fetches_console_write L msg : fetches (console_write L msg) = [].
Proof. unfold console_write. by destruct (truthy_bool _). Qed.

(** The request of a call to a logger with an external-logging target: one
    request, to the configured address, with the method given or [POST],
    with the stripped text as message, and with the headers given; the
    header [Content-Type] is the one given, or [application/json]. *)
Theorem log_request (reset : string) (trimStart trimEnd : string → string)
  (G : Filter) (L : ComfyLogger) (strings : value) (values : list value)
  (ext : ComfyLoggerExternalLoggingOptions) :
  shouldLog G L = true →
  externalLogging (options L) = Some ext →
  ∃ (t : list effect) (resultObj : LogEvent) (h : gmap string string),
    log reset trimStart trimEnd G L strings values = (t, Normal (Some resultObj))
    ∧ fetches t = [(url ext, default "POST" (method ext), h, stripped resultObj)]
    ∧ h !! "Content-Type"
      = Some (default "application/json" (default ∅ (headers ext) !! "Content-Type"))
    ∧ ∀ key, key ≠ "Content-Type" → h !! key = default ∅ (headers ext) !! key.
Proof.
  intros Hlog Hext. eexists _, _, _. split; [by apply log_run|].
  split; [|split].
  - unfold fetches. rewrite !omap_app.
    fold (fetches (console_write L (finalMessage reset trimStart trimEnd L strings values))).
    rewrite fetches_console_write.
    match goal with
    | |- context [omap _ (?ls ≫= dispatch_one ?obj)] =>
        fold (fetches (ls ≫= dispatch_one obj)); rewrite fetches_dispatch_one
    end.
    unfold request. rewrite Hext. reflexivity.
  - rewrite lookup_union, lookup_singleton_eq.
    by destruct (default ∅ (headers ext) !! "Content-Type").
  - intros key Hkey. rewrite lookup_union, lookup_singleton_ne by done.
    by destruct (default ∅ (headers ext) !! key).
Qed.

Lemma log_request_witness :
  ∃ (t : list effect) (resultObj : LogEvent) (h : gmap string string),
    log sgr_reset id id internalGlobalConfig (configure forwarding fresh)
      (VString "a") []
    = (t, Normal (Some resultObj))
    ∧ fetches t = [("http://logs.test/in", "POST", h, "a")]
    ∧ h !! "Content-Type" = Some "application/json".
Proof.
  destruct (log_request sgr_reset id id internalGlobalConfig
              (configure forwarding fresh) (VString "a") []
              {| url := "http://logs.test/in"; headers := None; method := None;
                 onError := None |} eq_refl eq_refl)
    as (t & resultObj & h & Hrun & Hfetches & Hcontent & _).
  exists t, resultObj, h. split; [exact Hrun|]. split; [|exact Hcontent].
  rewrite Hfetches. injection Hrun as _ <-. reflexivity.
Defined.

(** ** Dispatch on the live array *)

Lemma reenter_all_keeps ops L :
  Forall keeps_listeners ops →
  eventListeners (reenter_all ops L).1 = eventListeners L
  ∧ (reenter_all ops L).2 = [].
Proof.
  intros Hops. revert L. induction Hops as [|op ops Hop _ IH]; intros L; [done|].
  cbn [reenter_all].
  assert (eventListeners (reenter op L).1 = eventListeners L ∧ (reenter op L).2 = [])
    as [Hev Ht] by (by destruct op).
  destruct (reenter op L) as [L1 t1]. cbn [fst snd] in *. subst t1.
  destruct (IH L1) as [Hev' Ht'].
  destruct (reenter_all ops L1) as [L2 t2]. cbn [fst snd] in *. subst t2.
  by rewrite Hev', Hev.
Qed.

Section LiveRun.
Variable reset : string.
Variables trimStart trimEnd : string → string.
Variable G : Filter.
Variable during : nat → LogEvent → list reentry.

(** When no listener adds or removes a listener, the loop reaches them all,
    from the index [i] on, and leaves the listener lists as they are. *)
Lemma dispatch_live_settled fuel i L resultObj :
  settled during L resultObj →
  length (listeners_of (eventListeners L) EvLog) - i < fuel →
  ∃ L',
    dispatch_live during fuel i L resultObj
    = Some (L', drop i (listeners_of (eventListeners L) EvLog)
                ≫= dispatch_one resultObj)
    ∧ eventListeners L' = eventListeners L.
Proof.
  revert i L. induction fuel as [|fuel IH]; intros i L Hsettled Hfuel; [lia|].
  cbn [dispatch_live].
  destruct (listeners_of (eventListeners L) EvLog !! i) as [onLog|] eqn:Hi.
  - pose proof (Forall_lookup_1 _ _ _ _ Hsettled Hi) as Hkeeps.
    destruct (reenter_all_keeps (during (ref onLog) resultObj) L Hkeeps) as [Hev Ht].
    destruct (reenter_all (during (ref onLog) resultObj) L) as [L1 t1].
    cbn [fst snd] in *. subst t1.
    apply lookup_lt_Some in Hi as Hlt.
    destruct (IH (S i) L1) as (L' & Hrun & Hev').
    { unfold settled. by rewrite Hev. }
    { rewrite Hev. lia. }
    rewrite Hrun. cbn. exists L'. split; [|by rewrite Hev', Hev].
    rewrite Hev. cbn [listeners_of] in Hi. rewrite (drop_S _ _ _ Hi). cbn.
    by rewrite <- ?(assoc_L (++)).
  - apply lookup_ge_None in Hi. exists L. by rewrite drop_ge.
Qed.

(** The call as a whole, under the same condition. *)
Lemma log_live_settled fuel L strings values :
  shouldLog G L = true →
  let msg := finalMessage reset trimStart trimEnd L strings values in
  let resultObj := {| output := msg; stripped := stripAnsi msg |} in
  settled during L resultObj →
  length (listeners_of (eventListeners L) EvLog) < fuel →
  ∃ L',
    log_live reset trimStart trimEnd G during fuel L strings values
    = Some (L', (console_write L msg
                 ++ (listeners_of (eventListeners L) EvLog ≫= dispatch_one resultObj)
                 ++ request L' resultObj,
                 Normal (Some resultObj)))
    ∧ eventListeners L' = eventListeners L.
Proof.
  intros Hlog msg resultObj Hsettled Hfuel. unfold log_live. rewrite Hlog. cbn [negb].
  fold msg. fold resultObj.
  destruct (dispatch_live_settled fuel 0 L resultObj Hsettled) as (L' & -> & Hev);
    [lia|].
  exists L'. split; [|done]. cbn. by rewrite drop_0.
Qed.

(** A suppressed call does nothing, whatever the listeners would do. *)
Lemma log_live_suppressed fuel L strings values :
  shouldLog G L = false →
  log_live reset trimStart trimEnd G during fuel L strings values
  = Some (L, ([], Normal None)).
Proof. intros H. unfold log_live. by rewrite H. Qed.
End LiveRun.

(** Listeners that make no call on the logger: the call is [log], and the
    logger is as it was. *)
Lemma dispatch_live_undisturbed during fuel i L resultObj :
  (∀ fn e, during fn e = []) →
  length (listeners_of (eventListeners L) EvLog) - i < fuel →
  dispatch_live during fuel i L resultObj
  = Some (L, drop i (listeners_of (eventListeners L) EvLog) ≫= dispatch_one resultObj).
Proof.
  intros Hnone. revert i. induction fuel as [|fuel IH]; intros i Hfuel; [lia|].
  cbn [dispatch_live].
  destruct (listeners_of (eventListeners L) EvLog !! i) as [onLog|] eqn:Hi.
  - rewrite Hnone. cbn [reenter_all]. apply lookup_lt_Some in Hi as Hlt.
    rewrite IH by lia. cbn. cbn [listeners_of] in Hi. rewrite (drop_S _ _ _ Hi). cbn.
    by rewrite <- ?(assoc_L (++)).
  - apply lookup_ge_None in Hi. by rewrite drop_ge.
Qed.

Lemma log_live_undisturbed reset trimStart trimEnd G during fuel L strings values :
  (∀ fn e, during fn e = []) →
  length (listeners_of (eventListeners L) EvLog) < fuel →
  log_live reset trimStart trimEnd G during fuel L strings values
  = Some (L, log reset trimStart trimEnd G L strings values).
Proof.
  intros Hnone Hfuel. destruct (shouldLog G L) eqn:Hlog.
  - rewrite log_run by done. unfold log_live. rewrite Hlog. cbn [negb].
    rewrite dispatch_live_undisturbed by (done || lia). cbn. by rewrite drop_0.
  - by rewrite log_live_suppressed, log_suppressed.
Qed.

(** The projections of a trace in three parts. *)
Lemma calls_app3 t1 t2 t3 : calls (t1 ++ t2 ++ t3) = calls t1 ++ calls t2 ++ calls t3.
Proof. unfold calls. by rewrite !omap_app. Qed.




Lemma calls_settled_trace L L' msg resultObj :
  calls (console_write L msg
         ++ (listeners_of (eventListeners L) EvLog ≫= dispatch_one resultObj)
         ++ request L' resultObj)
  = (λ l, (ref l, resultObj)) <$> listeners_of (eventListeners L) EvLog.
Proof.
  by rewrite calls_app3, calls_console_write, calls_request, calls_dispatch_one,
    app_nil_r.
Qed.





(** ** The console switch, on the live array *)






(** ** Construction and registration, on the live array *)

(** A logger constructed with options has, for every property, the value the
    options give when they mention it and the default otherwise, no
    transformers, and the given listeners; a call on it that is not
    suppressed, and during which no listener adds or removes a listener,
    reaches these in the order given.  Constructed without options it has the
    defaults: auto-spacing and console on, no tags, no listeners. *)
Theorem new_ComfyLogger_spec (reset : string) (trimStart trimEnd : string → string)
  (G : Filter) (during : nat → LogEvent → list reentry) (fuel : nat)
  (o : ComfyLoggerConstructorOptions) (strings : value) (values : list value) :
  let L := new_ComfyLogger (Some o) in
  let msg := finalMessage reset trimStart trimEnd L strings values in
  let resultObj := {| output := msg; stripped := stripAnsi msg |} in
  shouldLog G L = true →
  settled during L resultObj →
  length (default [] (listeners o)) < fuel →
  (∀ k : option_name,
     get k (options L)
     = default (get k (options (new_ComfyLogger None))) (mentioned k (config o)))
  ∧ transformers L = {| before := []; after := [] |}
  ∧ listeners_of (eventListeners L) EvLog = default [] (listeners o)
  ∧ (∃ (L' : ComfyLogger) (t : list effect),
       log_live reset trimStart trimEnd G during fuel L strings values
       = Some (L', (t, Normal (Some resultObj)))
       ∧ calls t = (λ l, (ref l, resultObj)) <$> default [] (listeners o))
  ∧ options (new_ComfyLogger None)
    = {| autoSpaceBetween := Some true; timestampFormat := Some "HH:mm:ss";
         trimBefore := None; trimAfter := None; externalLogging := None;
         console := Some true; tags := Some []; logErrorsToConsole := Some true |}
  ∧ listeners_of (eventListeners (new_ComfyLogger None)) EvLog = [].
Proof.
  intros L msg resultObj Hlog Hsettled Hfuel.
  assert (listeners_of (eventListeners L) EvLog = default [] (listeners o)) as Hlisteners.
  { unfold L, new_ComfyLogger. by rewrite foldl_addEventListener. }
  assert (options L = options (configure (config o) fresh)) as Hoptions.
  { unfold L, new_ComfyLogger. by rewrite foldl_addEventListener. }
  split.
  { intros k. rewrite Hoptions.
    destruct k; cbn; by match goal with |- context [default _ (_ <$> ?x)] =>
                                          destruct x end. }
  split; [unfold L, new_ComfyLogger; by rewrite foldl_addEventListener|].
  split; [done|]. split; [|done].
  destruct (log_live_settled reset trimStart trimEnd G during fuel L strings values
              Hlog Hsettled) as (L' & Hrun & _); [by rewrite Hlisteners|].
  eexists _, _. split; [exact Hrun|].
  fold msg. fold resultObj. by rewrite calls_settled_trace, Hlisteners.
Qed.

Lemma new_ComfyLogger_spec_witness :
  ∃ (L' : ComfyLogger) (t : list effect) (resultObj : LogEvent),
    log_live sgr_reset id id internalGlobalConfig undisturbed 3
      (new_ComfyLogger
         (Some {| config := only_tags ["ui"];
                  listeners := Some [quiet 4; quiet 3] |}))
      (VString "a") []
    = Some (L', (t, Normal (Some resultObj)))
    ∧ calls t = [(4, resultObj); (3, resultObj)].
Proof.
  destruct (new_ComfyLogger_spec sgr_reset id id internalGlobalConfig undisturbed 3
              {| config := only_tags ["ui"]; listeners := Some [quiet 4; quiet 3] |}
              (VString "a") [] eq_refl)
    as (_ & _ & _ & (L' & t & Hrun & Hcalls) & _).
  - by repeat constructor.
  - cbn. lia.
  - eexists L', t, _. split; [exact Hrun|exact Hcalls].
Defined.


